(** * sample_data.py: sampling a benchmark dataset with its answers

    A shallow embedding of [sample_data.py] and the properties of its
    sampling engine, record store adapter and directory orchestrator.

    Modelling conventions.
    - A Python [str] is a [string]; identifiers are ASCII text, so
      [str.isdigit] is the range 0-9 and [str.isalpha] the ranges A-Z, a-z.
    - A record is a [dict] from field names to values, a [gmap string value].
      Only the hashable scalars that occur as ids are given constructors.
    - Exceptions are explicit: a computation returns [Ok v] or [Raise e],
      and the statements of a function are sequenced by a bind that stops
      at the first [Raise], keeping the state reached so far.
    - [sample_ratio] is an exact rational; the rounding of the floating
      point product [len * ratio] is outside the model.
    - [random.sample] draws its indices from an explicit entropy stream. *)

From Stdlib Require Import ZArith QArith Qround.
From Stdlib Require Import Sorting.Sorted.
From Stdlib Require Import Strings.Ascii DecimalString.
From stdpp Require Import gmap strings list fin_maps sorting.

Local Open Scope Z_scope.

(** ** Python strings *)

Module PyStr.

Definition code (c : ascii) : N := Ascii.N_of_ascii c.

(** [str.isdigit] on ASCII text. *)
Definition isdigit (c : ascii) : bool :=
  ((48 <=? code c) && (code c <=? 57))%N.

(** [str.isalpha] on ASCII text. *)
Definition isalpha (c : ascii) : bool :=
  (((65 <=? code c) && (code c <=? 90)) || ((97 <=? code c) && (code c <=? 122)))%N.

(** The white space [int()] strips: tab, newline, vertical tab, form feed,
    carriage return and space. *)
Definition isspace (c : ascii) : bool :=
  (((9 <=? code c) && (code c <=? 13)) || (code c =? 32))%N.

Definition digit_value (c : ascii) : Z := Z.of_N (code c) - 48.

Fixpoint filter (f : ascii → bool) (s : string) : string :=
  match s with
  | EmptyString => EmptyString
  | String c s' => if f c then String c (filter f s') else filter f s'
  end.

Fixpoint lstrip (s : string) : string :=
  match s with
  | String c s' => if isspace c then lstrip s' else s
  | EmptyString => EmptyString
  end.

Fixpoint rstrip (s : string) : string :=
  match s with
  | EmptyString => EmptyString
  | String c s' =>
      match rstrip s' with
      | EmptyString => if isspace c then EmptyString else String c EmptyString
      | t => String c t
      end
  end.

Definition strip (s : string) : string := rstrip (lstrip s).

(** The digits of a decimal literal: digits with single underscores
    between them.  [seen] tells whether the previous character was a
    digit. *)
Fixpoint digits (acc : Z) (seen : bool) (s : string) : option Z :=
  match s with
  | EmptyString => if seen then Some acc else None
  | String c s' =>
      if isdigit c then digits (10 * acc + digit_value c) true s'
      else if Ascii.eqb c "_" then
        if seen then digits acc false s' else None
      else None
  end.

(** [int(s)] in base ten: [None] stands for [ValueError].  The optional
    limit of the interpreter on the number of digits is not modelled. *)
Definition int (s : string) : option Z :=
  match strip s with
  | String "+" s' => digits 0 false s'
  | String "-" s' => Z.opp <$> digits 0 false s'
  | s' => digits 0 false s'
  end.

(** [s.split(sep)] for a one-character separator. *)
Fixpoint split (sep : ascii) (s : string) : list string :=
  match s with
  | EmptyString => [EmptyString]
  | String c s' =>
      if Ascii.eqb c sep then EmptyString :: split sep s'
      else match split sep s' with
           | p :: ps => String c p :: ps
           | [] => [String c EmptyString]
           end
  end.

(** [sep.join(parts)]. *)
Fixpoint join (sep : string) (parts : list string) : string :=
  match parts with
  | [] => EmptyString
  | [p] => p
  | p :: ps => p +:+ sep +:+ join sep ps
  end.

(** [str.lower] on ASCII text. *)
Definition lower_char (c : ascii) : ascii :=
  if ((65 <=? code c) && (code c <=? 90))%N
  then Ascii.ascii_of_N (code c + 32) else c.

Fixpoint lower (s : string) : string :=
  match s with
  | EmptyString => EmptyString
  | String c s' => String (lower_char c) (lower s')
  end.

(** [str(n)] for an integer. *)
Definition of_Z (n : Z) : string := NilZero.string_of_int (Z.to_int n).

End PyStr.

(** ** Records *)

(** The values an [id] field holds after [json.loads]. *)
Inductive value : Type :=
  | VNone
  | VStr (s : string)
  | VInt (n : Z).

Global Instance value_eq_dec : EqDecision value.
Proof. solve_decision. Defined.

Global Instance value_countable : Countable value.
Proof.
  refine (inj_countable'
    (λ v, match v with
          | VNone => inl ()
          | VStr s => inr (inl s)
          | VInt n => inr (inr n)
          end)
    (λ x, match x with
          | inl _ => VNone
          | inr (inl s) => VStr s
          | inr (inr n) => VInt n
          end) _).
  by intros [].
Defined.

(** [str(v)]. *)
Definition py_str (v : value) : string :=
  match v with
  | VNone => "None"
  | VStr s => s
  | VInt n => PyStr.of_Z n
  end.

Abbreviation record := (gmap string value).

(** The record [{"id": id}]. *)
Definition record_of_id (id : string) : record := {[ "id" := VStr id ]}.

(** [record.get("id")]: [None] when the key is missing. *)
Definition get_id (r : record) : value := default VNone (r !! "id").

(** ** The Composite Sort Key *)

Definition sort_key : Type := string * Z.

Definition extract_numeric_id (r : record) : sort_key :=
  let id_str := py_str (default (VStr "") (r !! "id")) in
  if decide (id_str = "") then ("", 0)
  else
    let parts := PyStr.split "_" id_str in
    let fallback :=
      match PyStr.int (PyStr.filter PyStr.isdigit id_str) with
      | Some numeric_part => (PyStr.filter PyStr.isalpha id_str, numeric_part)
      | None => (id_str, 0)
      end in
    if decide (2 ≤ length parts)%nat then
      match PyStr.int (List.last parts "") with
      | Some numeric_part => (PyStr.join "_" (removelast parts), numeric_part)
      | None => fallback
      end
    else fallback.

(** Tuples compare lexicographically: strings by code point, then the
    integers. *)
Definition key_lt (a b : sort_key) : bool :=
  match String.compare a.1 b.1 with
  | Lt => true
  | Eq => a.2 <? b.2
  | Gt => false
  end.

(** [sorted(l, key=key)]: the sort is stable, an element moves in front of
    an earlier one only when its key is strictly smaller. *)
Section sorted.
Context {A : Type} (key : A → sort_key).

Fixpoint insert_by (x : A) (l : list A) : list A :=
  match l with
  | [] => [x]
  | y :: l' =>
      if key_lt (key y) (key x) then y :: insert_by x l' else x :: l
  end.

Fixpoint sorted (l : list A) : list A :=
  match l with
  | [] => []
  | x :: l' => insert_by x (sorted l')
  end.

(** No element is followed by one with a smaller key. *)
Definition ordered (l : list A) : Prop :=
  Sorted (λ x y, key_lt (key y) (key x) = false) l.
End sorted.

Definition sort_by_numeric_id (records : list record) : list record :=
  sorted extract_numeric_id records.

(** *** Lists and records as objects

    [records] and the list [sorted] returns are objects of the heap, and a
    list holds references to its records. *)
Module Heap.

Abbreviation ref := nat.

Record heap : Type := Build {
  dicts : gmap ref record;
  lists : gmap ref (list ref)
}.

Definition deref (h : heap) (r : ref) : record := default ∅ (dicts h !! r).

(** [sorted] allocates the list it returns. *)
Definition sort_by_numeric_id (h : heap) (records : ref) : option (ref * heap) :=
  match lists h !! records with
  | Some refs =>
      let result := fresh (dom (lists h)) in
      let out := sorted (λ r, extract_numeric_id (deref h r)) refs in
      Some (result, Build (dicts h) (<[result := out]> (lists h)))
  | None => None
  end.

End Heap.

(** ** Exceptions, the world and the statement monad *)

(** A path is the list of its components below the root. *)
Abbreviation path := (list string).

(** The exception classes the program meets.  [KeyboardInterrupt] is not
    raised by any statement below; it stands for the classes that derive
    from [BaseException] only, which [except Exception] lets through. *)
Inductive exn : Type :=
  | ValueError (msg : string)
  | JSONDecodeError (text : string)
  | KeyError (key : string)
  | NameError (name : string)
  | UnboundLocalError (name : string)
  | TypeError (msg : string)
  | FileNotFoundError (p : path)
  | FileExistsError (p : path)
  | IsADirectoryError (p : path)
  | NotADirectoryError (p : path)
  | KeyboardInterrupt.

(** [isinstance(e, Exception)]. *)
Definition is_Exception (e : exn) : bool :=
  match e with
  | KeyboardInterrupt => false
  | _ => true
  end.

Inductive result (A : Type) : Type :=
  | Ok (a : A)
  | Raise (e : exn).
Arguments Ok {A} a.
Arguments Raise {A} e.

(** One line of a file: a JSON object, or text [json.loads] rejects. *)
Inductive line : Type :=
  | JsonLine (r : record)
  | BadLine (text : string).

Inductive node : Type :=
  | File (lines : list line)
  | Dir (children : list string).

(** What [print] writes. *)
Inductive event : Type :=
  | MissingSource (src_dir : path)
  | Processing (file_path : path)
  | SavedRecords (dest_file : path)
  | SavedAnswers (dest_answer_file : path)
  | LengthWarning (n_records n_answers : nat)
  | ErrorProcessing (file_path : path) (e : exn).

Record world : Type := World {
  fs : gmap path node;
  stdout : list event;
  entropy : list nat
}.

(** A statement runs on a state [S] and either returns or raises; the state
    it reached is kept in both cases. *)
Definition M (S A : Type) : Type := S → result A * S.

Definition ret {S A} (a : A) : M S A := λ s, (Ok a, s).
Definition raise {S A} (e : exn) : M S A := λ s, (Raise e, s).
Definition bind {S A B} (c : M S A) (k : A → M S B) : M S B :=
  λ s, match c s with
       | (Ok a, s') => k a s'
       | (Raise e, s') => (Raise e, s')
       end.
Definition lift {S A} (r : result A) : M S A := λ s, (r, s).

Notation "'let*' x ':=' c 'in' k" := (bind c (λ x, k))
  (at level 10, x name, c at level 100, k at level 200).
Notation "c ;;; k" := (bind c (λ _, k))
  (at level 100, k at level 200, right associativity).

(** [try: body except Exception as e: handler(e)]. *)
Definition try_except {S A} (body : M S A) (handler : exn → M S A) : M S A :=
  λ s, match body s with
       | (Raise e, s') => if is_Exception e then handler e s' else (Raise e, s')
       | r => r
       end.

Definition print (e : event) : M world unit :=
  λ w, (Ok (), World (fs w) (stdout w ++ [e]) (entropy w)).

(** ** [random.sample] *)

(** [randbelow(n)]: the next word of the entropy stream, reduced below [n];
    a stream that has run out reads as 0. *)
Definition randbelow (n : nat) : M world nat :=
  λ w, match entropy w with
       | [] => (Ok 0%nat, w)
       | x :: rest => (Ok (x `mod` n)%nat, World (fs w) (stdout w) rest)
       end.

(** The selection loop of [random.sample]: each round takes [pool[j]] for a
    random [j] below the number of live entries and moves the last live
    entry into the vacancy. *)
Fixpoint sample_pool {A} (pool : list A) (k : nat) : M world (list A) :=
  match k with
  | O => ret []
  | S k' =>
      let* j := randbelow (length pool) in
      match pool !! j, List.last (Some <$> pool) None with
      | Some x, Some y =>
          let* rest := sample_pool (take (length pool - 1) (<[j := y]> pool)) k' in
          ret (x :: rest)
      | _, _ => ret []
      end
  end.

Definition random_sample {A} (population : list A) (k : Z) : M world (list A) :=
  if decide (0 ≤ k ≤ Z.of_nat (length population))
  then sample_pool population (Z.to_nat k)
  else raise (ValueError "Sample larger than population or is negative").

(** ** The sampling engine *)

Definition get_record_ids (records : list record) : gset value :=
  list_to_set (get_id <$> records).

Definition get_answer_ids (answers : list record) : gset value :=
  list_to_set (get_id <$> answers).

Definition filter_records_with_answers
    (records : list record) (answer_ids : gset value) : list record :=
  List.filter (λ r, bool_decide (get_id r ∈ answer_ids)) records.

(** [0 < ratio <= 1]. *)
Definition in_range (ratio : Q) : bool :=
  (0 <? Qnum ratio) && (Qnum ratio <=? Z.pos (Qden ratio)).

(** [int(x)] for the product [n * ratio]: truncation towards zero. *)
Definition int_of_product (n : nat) (ratio : Q) : Z :=
  Z.quot (Z.of_nat n * Qnum ratio) (Z.pos (Qden ratio)).

(** [max(1, int(len(population) * sample_ratio))]. *)
Definition num_samples (n : nat) (sample_ratio : Q) : Z :=
  Z.max 1 (int_of_product n sample_ratio).

(** [{answer["id"]: answer for answer in answers}]: a later answer replaces
    an earlier one with the same id; a missing key raises. *)
Fixpoint build_answer_map (answers : list record) (m : gmap value record)
    : result (gmap value record) :=
  match answers with
  | [] => Ok m
  | answer :: rest =>
      match answer !! "id" with
      | Some v => build_answer_map rest (<[v := answer]> m)
      | None => Raise (KeyError "id")
      end
  end.

(** Lines 106-109: the answers of the sampled records, in their order. *)
Fixpoint collect_answers (answer_map : gmap value record)
    (sampled_records sampled_answers : list record) : result (list record) :=
  match sampled_records with
  | [] => Ok sampled_answers
  | r :: rest =>
      match r !! "id" with
      | None => Raise (KeyError "id")
      | Some v =>
          match answer_map !! v with
          | Some a => collect_answers answer_map rest (sampled_answers ++ [a])
          | None => collect_answers answer_map rest sampled_answers
          end
      end
  end.

(** The objects a name can be bound to in [sample_records_with_answers]. *)
Inductive pyobj : Type :=
  | ORecords (l : list record)
  | OIds (s : gset value)
  | OAnswerMap (m : gmap value record)
  | OInt (n : Z)
  | ORatio (q : Q)
  | OFunction
  | OModule.

(** The names the module binds at top level: its imports and its functions. *)
Definition module_globals : gmap string pyobj :=
  list_to_map
    ((λ name, (name, OModule)) <$>
       ["argparse"; "json"; "os"; "random"; "shutil"; "Path"; "Any"; "Dict";
        "List"; "Union"]) ∪
  list_to_map
    ((λ name, (name, OFunction)) <$>
       ["load_jsonl_file"; "save_jsonl_file"; "get_record_ids"; "get_answer_ids";
        "filter_records_with_answers"; "extract_numeric_id"; "sort_by_numeric_id";
        "sample_records_with_answers"; "process_directory"; "main"]).

(** Reading a name: the locals of the running function, then the globals of
    the module; the builtins have no name this program misses. *)
Definition load_name (locals : gmap string pyobj) (name : string) : result pyobj :=
  match locals !! name with
  | Some o => Ok o
  | None =>
      match module_globals !! name with
      | Some o => Ok o
      | None => Raise (NameError name)
      end
  end.

(** [v in container]. *)
Definition py_in (v : value) (container : pyobj) : result bool :=
  match container with
  | OIds s => Ok (bool_decide (v ∈ s))
  | OAnswerMap m => Ok (bool_decide (is_Some (m !! v)))
  | ORecords _ => Ok false
  | _ => Raise (TypeError "argument is not iterable")
  end.

(** Line 122: [[answer for answer in answers if answer.get("id") in sampled_ids]].
    The condition is evaluated once per answer, in the scope [locals]. *)
Fixpoint filter_answers (locals : gmap string pyobj) (answers : list record)
    : result (list record) :=
  match answers with
  | [] => Ok []
  | answer :: rest =>
      match load_name locals "sampled_ids" with
      | Raise e => Raise e
      | Ok container =>
          match py_in (get_id answer) container with
          | Raise e => Raise e
          | Ok keep =>
              match filter_answers locals rest with
              | Raise e => Raise e
              | Ok rest' => Ok (if keep then answer :: rest' else rest')
              end
          end
      end
  end.

Definition sample_records_with_answers
    (records answers : list record) (sample_ratio : Q)
    : M world (list record * list record) :=
  let answer_ids := get_answer_ids answers in
  let valid_records := filter_records_with_answers records answer_ids in
  let* answer_map := lift (build_answer_map answers ∅) in
  let n_samples := num_samples (length valid_records) sample_ratio in
  let* sampled_records := random_sample valid_records n_samples in
  let sampled_records := sort_by_numeric_id sampled_records in
  let* sampled_answers := lift (collect_answers answer_map sampled_records []) in
  let* aligned :=
    if decide (length sampled_records ≠ length sampled_answers) then
      print (LengthWarning (length sampled_records) (length sampled_answers)) ;;;
      let min_len := (length sampled_records `min` length sampled_answers)%nat in
      ret (take min_len sampled_records, take min_len sampled_answers)
    else ret (sampled_records, sampled_answers) in
  let '(sampled_records, sampled_answers) := aligned in
  let locals : gmap string pyobj :=
    {[ "records" := ORecords records; "answers" := ORecords answers;
       "sample_ratio" := ORatio sample_ratio; "answer_ids" := OIds answer_ids;
       "valid_records" := ORecords valid_records;
       "answer_map" := OAnswerMap answer_map; "num_samples" := OInt n_samples;
       "sampled_records" := ORecords sampled_records;
       "sampled_answers" := ORecords sampled_answers ]} in
  let* filtered_answers := lift (filter_answers locals answers) in
  let sorted_answers := sort_by_numeric_id filtered_answers in
  ret (sampled_records, sorted_answers).

(** ** The file system and the record store adapter *)

Definition dirname (p : path) : path := removelast p.
Definition name (p : path) : string := List.last p "".

Definition is_dir (m : gmap path node) (p : path) : bool :=
  match p, m !! p with
  | [], _ => true
  | _, Some (Dir _) => true
  | _, _ => false
  end.

(** [os.path.exists(p)] and [Path.exists()]. *)
Definition path_exists (p : path) : M world bool :=
  λ w, (Ok (bool_decide (is_Some (fs w !! p)) || bool_decide (p = [])), w).

(** [Path.is_file()]. *)
Definition is_file (p : path) : M world bool :=
  λ w, (Ok (match fs w !! p with Some (File _) => true | _ => false end), w).

(** A new entry shows up last in the listing of its directory. *)
Definition add_child (parent : path) (child : string) (m : gmap path node)
    : gmap path node :=
  match m !! parent with
  | Some (Dir children) =>
      if decide (child ∈ children) then m
      else <[parent := Dir (children ++ [child])]> m
  | _ => m
  end.

(** [os.makedirs(p, exist_ok=True)]: every missing directory on the way to
    [p] is created; a regular file on the way is an error. *)
Fixpoint makedirs_from (parent : path) (rest : list string) (m : gmap path node)
    : result (gmap path node) :=
  match rest with
  | [] => Ok m
  | c :: rest' =>
      let cur := (parent ++ [c]) in
      match m !! cur with
      | Some (Dir _) => makedirs_from cur rest' m
      | Some (File _) =>
          Raise (match rest' with
                 | [] => FileExistsError cur
                 | _ => NotADirectoryError cur
                 end)
      | None => makedirs_from cur rest' (<[cur := Dir []]> (add_child parent c m))
      end
  end.

Definition makedirs (p : path) : M world unit :=
  λ w, match makedirs_from [] p (fs w) with
       | Ok m => (Ok (), World m (stdout w) (entropy w))
       | Raise e => (Raise e, w)
       end.

(** [open(p)] and reading all its lines. *)
Definition read_lines (p : path) : M world (list line) :=
  λ w, match fs w !! p with
       | Some (File lines) => (Ok lines, w)
       | Some (Dir _) => (Raise (IsADirectoryError p), w)
       | None =>
           (Raise (if bool_decide (p = []) then IsADirectoryError p
                   else FileNotFoundError p), w)
       end.

(** [open(p, "w")] followed by the writes: the file is replaced. *)
Definition write_lines (p : path) (lines : list line) : M world unit :=
  λ w, match fs w !! p with
       | Some (Dir _) => (Raise (IsADirectoryError p), w)
       | Some (File _) =>
           (Ok (), World (<[p := File lines]> (fs w)) (stdout w) (entropy w))
       | None =>
           if bool_decide (p = []) then (Raise (IsADirectoryError p), w)
           else if is_dir (fs w) (dirname p) then
             (Ok (), World (<[p := File lines]> (add_child (dirname p) (name p) (fs w)))
                           (stdout w) (entropy w))
           else (Raise (FileNotFoundError p), w)
       end.

(** [json.loads] line by line. *)
Fixpoint loads_lines (lines : list line) (records : list record)
    : result (list record) :=
  match lines with
  | [] => Ok records
  | JsonLine r :: rest => loads_lines rest (records ++ [r])
  | BadLine text :: _ => Raise (JSONDecodeError text)
  end.

Definition load_jsonl_file (file_path : path) : M world (list record) :=
  let* lines := read_lines file_path in
  lift (loads_lines lines []).

Definition save_jsonl_file (records : list record) (file_path : path)
    : M world unit :=
  let sorted_records := sort_by_numeric_id records in
  makedirs (dirname file_path) ;;;
  write_lines file_path (JsonLine <$> sorted_records).

(** ** The directory orchestrator *)

(** [Path.suffix]: the part of the name from its last dot, when that dot is
    neither the first nor the last character. *)
Definition suffix (p : path) : string :=
  let parts := PyStr.split "." (name p) in
  let stem := PyStr.join "." (removelast parts) in
  let ext := List.last parts "" in
  if decide (stem ≠ "" ∧ ext ≠ "") then "." +:+ ext else "".

(** [Path.glob("*")]: the entries of the directory, in the order the
    operating system lists them. *)
Definition glob (dir : path) : M world (list path) :=
  λ w, (Ok (match fs w !! dir with
            | Some (Dir children) => (λ c, (dir ++ [c])) <$> children
            | _ => []
            end), w).

(** The local variable [records] of [process_directory]: unbound until the
    first assignment, and kept from one iteration to the next. *)
Abbreviation frame := (option (list record) * world)%type.

Definition io {A} (c : M world A) : M frame A :=
  λ s, match c s.2 with (r, w') => (r, (s.1, w')) end.

Definition load_records : M frame (list record) :=
  λ s, match s.1 with
       | Some records => (Ok records, s)
       | None => (Raise (UnboundLocalError "records"), s)
       end.

Definition store_records (records : list record) : M frame unit :=
  λ s, (Ok (), (Some records, s.2)).

Definition with_frame {A} (c : M frame A) : M world A :=
  λ w, match c (None, w) with (r, s) => (r, s.2) end.

(** Lines 151-186: the body of the [try]. *)
Definition process_file (src_dir dest_dir : path) (sample_rate : Q)
    (file_path : path) : M frame unit :=
  (if decide (PyStr.lower (suffix file_path) = ".jsonl") then
     let* records := io (load_jsonl_file file_path) in
     store_records records
   else ret ()) ;;;
  let possible_answer_dir := (src_dir ++ ["possible_answer"]) in
  let possible_answer_file := (possible_answer_dir ++ [name file_path]) in
  let* has_answers := io (path_exists possible_answer_file) in
  if has_answers then
    let* possible_answers := io (load_jsonl_file possible_answer_file) in
    let* records := load_records in
    let* sampled :=
      io (sample_records_with_answers records possible_answers sample_rate) in
    let dest_file := (dest_dir ++ [name file_path]) in
    io (save_jsonl_file sampled.1 dest_file) ;;;
    io (print (SavedRecords dest_file)) ;;;
    let dest_answer_dir := (dest_dir ++ ["possible_answer"]) in
    io (makedirs dest_answer_dir) ;;;
    let dest_answer_file := (dest_answer_dir ++ [name file_path]) in
    io (save_jsonl_file sampled.2 dest_answer_file) ;;;
    io (print (SavedAnswers dest_answer_file))
  else
    let* records := load_records in
    let* sampled_records :=
      io (random_sample records (num_samples (length records) sample_rate)) in
    let dest_file := (dest_dir ++ [name file_path]) in
    io (save_jsonl_file sampled_records dest_file) ;;;
    io (print (SavedRecords dest_file)).

Definition eligible (file_path : path) : bool :=
  bool_decide (PyStr.lower (suffix file_path) ∈ [".json"; ".jsonl"]).

(** Lines 141-189: the loop over the listing. *)
Fixpoint process_files (src_dir dest_dir : path) (sample_rate : Q)
    (files : list path) : M frame unit :=
  match files with
  | [] => ret ()
  | file_path :: rest =>
      let* regular := io (is_file file_path) in
      if negb regular then process_files src_dir dest_dir sample_rate rest
      else if negb (eligible file_path)
      then process_files src_dir dest_dir sample_rate rest
      else
        io (print (Processing file_path)) ;;;
        try_except (process_file src_dir dest_dir sample_rate file_path)
                   (λ e, io (print (ErrorProcessing file_path e))) ;;;
        process_files src_dir dest_dir sample_rate rest
  end.

Definition process_directory (src_dir dest_dir : path) (sample_rate : Q)
    : M world unit :=
  let* found := path_exists src_dir in
  if negb found then print (MissingSource src_dir)
  else
    makedirs dest_dir ;;;
    let* files := glob src_dir in
    with_frame (process_files src_dir dest_dir sample_rate files).

(** *** The loop of [main] *)

(** [fnmatch(name, "BFCL_v3_*.json")]. *)
Definition matches_BFCL_v3_json (file_name : string) : bool :=
  String.prefix "BFCL_v3_" file_name
  && String.prefix (String.rev ".json") (String.rev file_name)
  && bool_decide (13 ≤ String.length file_name)%nat.

(** Lines 229-264: the body of the [try] in [main]. *)
Definition main_file (data_dir sample_dir : path) (sample_ratio : Q)
    (file_path : path) : M world unit :=
  let* records := load_jsonl_file file_path in
  let possible_answer_dir := (data_dir ++ ["possible_answer"]) in
  let possible_answer_file := (possible_answer_dir ++ [name file_path]) in
  let* has_answers := path_exists possible_answer_file in
  if has_answers then
    let* possible_answers := load_jsonl_file possible_answer_file in
    let* sampled :=
      sample_records_with_answers records possible_answers sample_ratio in
    let dest_file := (sample_dir ++ [name file_path]) in
    save_jsonl_file sampled.1 dest_file ;;;
    print (SavedRecords dest_file) ;;;
    let dest_answer_dir := (sample_dir ++ ["possible_answer"]) in
    makedirs dest_answer_dir ;;;
    let dest_answer_file := (dest_answer_dir ++ [name file_path]) in
    save_jsonl_file sampled.2 dest_answer_file ;;;
    print (SavedAnswers dest_answer_file)
  else
    let* sampled_records :=
      random_sample records (num_samples (length records) sample_ratio) in
    let sampled_records := sort_by_numeric_id sampled_records in
    let dest_file := (sample_dir ++ [name file_path]) in
    save_jsonl_file sampled_records dest_file ;;;
    print (SavedRecords dest_file).

Fixpoint main_files (data_dir sample_dir : path) (sample_ratio : Q)
    (files : list path) : M world unit :=
  match files with
  | [] => ret ()
  | file_path :: rest =>
      let* regular := is_file file_path in
      if negb regular then main_files data_dir sample_dir sample_ratio rest
      else
        print (Processing file_path) ;;;
        try_except (main_file data_dir sample_dir sample_ratio file_path)
                   (λ e, print (ErrorProcessing file_path e)) ;;;
        main_files data_dir sample_dir sample_ratio rest
  end.

(** Lines 205-267 of [main], from the parsed percentage on; the copies of
    the auxiliary directory and of the README that follow do not go through
    the adapter and are left out. *)
Definition main_sampling (base_dir : path) (percentage : Q) : M world unit :=
  let sample_ratio := (percentage / 100)%Q in
  if negb (in_range sample_ratio)
  then raise (ValueError "Percentage must be between 0 and 100")
  else
    let data_dir := (base_dir ++ ["berkeley-function-call-leaderboard"; "data"]) in
    let data_n :=
      "data_" +:+ PyStr.of_Z (Z.quot (Qnum percentage) (Z.pos (Qden percentage))) in
    let sample_dir :=
      (base_dir ++ ["berkeley-function-call-leaderboard"; data_n]) in
    makedirs sample_dir ;;;
    let* entries := glob data_dir in
    main_files data_dir sample_dir sample_ratio
      (List.filter (λ p, matches_BFCL_v3_json (name p)) entries).


(** ** The Composite Sort Key, as the specification words it *)

Module Spec.




End Spec.


(** ** Statements and what they preserve *)

(** A statement is tame for a relation [R] on states when the state it
    reaches, returning or raising, is related to the one it started from,
    and what it raises is an [Exception]. *)
Definition tame {S A} (R : relation S) (c : M S A) : Prop :=
  ∀ s r s', c s = (r, s') → R s s' ∧ ∀ e, r = Raise e → is_Exception e = true.


(** *** How a run changes the world *)

(** A directory, or a file whose lines are records in the order of the
    Composite Sort Key. *)
Definition canonical (n : node) : Prop :=
  match n with
  | Dir _ => True
  | File lines =>
      ∃ records, lines = JsonLine <$> records ∧ ordered extract_numeric_id records
  end.

(** Regular files stay regular files, and an entry that is new or changed
    is canonical. *)
Definition fs_evolves (m m' : gmap path node) : Prop :=
  ∀ p, (∀ lines, m !! p = Some (File lines) → ∃ lines', m' !! p = Some (File lines')) ∧
       (m' !! p = m !! p ∨ ∃ n, m' !! p = Some n ∧ canonical n).

Definition evolves (w w' : world) : Prop :=
  stdout w `prefix_of` stdout w' ∧ fs_evolves (fs w) (fs w').

Definition frame_evolves (s s' : frame) : Prop := evolves s.2 s'.2.

(** *** Relations used for the adapter and the orchestrator *)

(** Between [m] and [m'] no regular file appears, disappears or changes, and
    directories stay directories. *)
Definition grows (m m' : gmap path node) : Prop :=
  ∀ q, (∀ lines, m' !! q = Some (File lines) ↔ m !! q = Some (File lines)) ∧
       (∀ children, m !! q = Some (Dir children) → ∃ children', m' !! q = Some (Dir children')).

(** Every directory on the way to [p], [p] included, exists in [m]. *)
Definition dirs_exist (m : gmap path node) (parent : path) (rest : list string) : Prop :=
  ∀ k, (1 ≤ k ≤ length rest)%nat →
       ∃ children, m !! (parent ++ take k rest) = Some (Dir children).

(** No regular file is on the way to [p], [p] included. *)
Definition no_file_on_the_way (m : gmap path node) (parent : path) (rest : list string) : Prop :=
  ∀ k lines, (1 ≤ k ≤ length rest)%nat → m !! (parent ++ take k rest) ≠ Some (File lines).

(** The regular files outside the directory [dest_dir] are the same in [m']
    as in [m]. *)
Definition outside_untouched (dest_dir : path) (m m' : gmap path node) : Prop :=
  ∀ q lines, ¬ dest_dir `prefix_of` q →
             (m' !! q = Some (File lines) ↔ m !! q = Some (File lines)).

Definition world_outside (dest_dir : path) (w w' : world) : Prop :=
  outside_untouched dest_dir (fs w) (fs w').

Definition frame_outside (dest_dir : path) (s s' : frame) : Prop :=
  world_outside dest_dir s.2 s'.2.

(** A statement whose runs relate the state reached to the state they
    started from, returning or raising. *)
Definition keeps {S A} (R : relation S) (c : M S A) : Prop :=
  ∀ s r s', c s = (r, s') → R s s'.

(** * Properties *)

(** ** The order on sort keys *)

Lemma key_lt_asym (a b : sort_key) : key_lt a b = true → key_lt b a = false.
Proof.
  unfold key_lt. rewrite (String.compare_antisym b.1 a.1).
  destruct (String.compare a.1 b.1); simpl; try done.
  intros H. apply Z.ltb_lt in H. apply Z.ltb_ge. lia.
Qed.

Lemma key_lt_irrefl (a : sort_key) : key_lt a a = false.
Proof.
  destruct (key_lt a a) eqn:H; [|done].
  pose proof (key_lt_asym _ _ H). congruence.
Qed.

(** ** The stable sort *)

Section sorted_facts.
Context {A : Type} (key : A → sort_key).

Lemma insert_by_perm (x : A) (l : list A) : insert_by key x l ≡ₚ x :: l.
Proof.
  induction l as [|y l IH]; simpl; [done|].
  destruct (key_lt (key y) (key x)); [|done].
  rewrite IH. apply Permutation_swap.
Qed.

Lemma sorted_perm (l : list A) : sorted key l ≡ₚ l.
Proof.
  induction l as [|x l IH]; simpl; [done|].
  by rewrite insert_by_perm, IH.
Qed.

Lemma insert_by_ordered (x : A) (l : list A) :
  ordered key l → ordered key (insert_by key x l).
Proof.
  unfold ordered. induction 1 as [|y l Hl IH Hhd]; simpl.
  - repeat constructor.
  - destruct (key_lt (key y) (key x)) eqn:Hyx.
    + constructor; [done|].
      destruct Hhd as [|z l' Hz]; simpl.
      * constructor. by apply key_lt_asym.
      * destruct (key_lt (key z) (key x)); constructor;
          [done | by apply key_lt_asym].
    + constructor; [by constructor | by constructor].
Qed.

Lemma sorted_ordered (l : list A) : ordered key (sorted key l).
Proof.
  induction l as [|x l IH]; simpl; [constructor|].
  by apply insert_by_ordered.
Qed.

(** A list in order is left as it is. *)
Lemma sorted_of_ordered (l : list A) : ordered key l → sorted key l = l.
Proof.
  unfold ordered. induction 1 as [|x l Hl IH Hhd]; simpl; [done|].
  rewrite IH. destruct Hhd as [|y l' Hy]; simpl; [done|].
  by rewrite Hy.
Qed.

End sorted_facts.

Lemma insert_by_fmap {A B} (f : A → B) (key : B → sort_key) (x : A) (l : list A) :
  f <$> insert_by (λ a, key (f a)) x l = insert_by key (f x) (f <$> l).
Proof.
  induction l as [|y l IH]; simpl; [done|].
  destruct (key_lt (key (f y)) (key (f x))); simpl; [|done].
  f_equal. exact IH.
Qed.

Lemma sorted_fmap {A B} (f : A → B) (key : B → sort_key) (l : list A) :
  f <$> sorted (λ a, key (f a)) l = sorted key (f <$> l).
Proof.
  induction l as [|x l IH]; [done|].
  change (f <$> insert_by (λ a, key (f a)) x (sorted (λ a, key (f a)) l)
          = insert_by key (f x) (sorted key (f <$> l))).
  rewrite <- IH. apply insert_by_fmap.
Qed.

(** C8: sorting is idempotent: sorting what [sort_by_numeric_id] returned
    gives the same list again, and so does sorting any list that is in the
    order of the Composite Sort Key. *)
Theorem sort_by_numeric_id_idempotent :
  (∀ xs : list record,
     sort_by_numeric_id (sort_by_numeric_id xs) = sort_by_numeric_id xs) ∧
  (∀ xs : list record,
     ordered extract_numeric_id xs → sort_by_numeric_id xs = xs).
Proof.
  unfold sort_by_numeric_id. split.
  - intros xs. apply sorted_of_ordered, sorted_ordered.
  - intros xs. apply sorted_of_ordered.
Qed.

Lemma sort_by_numeric_id_idempotent_witness :
  sort_by_numeric_id [record_of_id "a_9"; record_of_id "a_10"; record_of_id "b_1"]
  = [record_of_id "a_9"; record_of_id "a_10"; record_of_id "b_1"].
Proof.
  apply (proj2 sort_by_numeric_id_idempotent).
  repeat constructor.
Defined.

(** C9: sorting returns a permutation of its input; the records are the
    same objects with the same contents, and the input list still holds
    what it held: the result is a list of its own. *)
Theorem sort_by_numeric_id_frame :
  (∀ xs : list record, sort_by_numeric_id xs ≡ₚ xs) ∧
  (∀ (h : Heap.heap) (records : Heap.ref) (refs : list Heap.ref),
     Heap.lists h !! records = Some refs →
     ∃ (result : Heap.ref) (h' : Heap.heap) (out : list Heap.ref),
       Heap.sort_by_numeric_id h records = Some (result, h') ∧
       Heap.dicts h' = Heap.dicts h ∧
       Heap.lists h' !! records = Some refs ∧
       (∀ l, l ≠ result → Heap.lists h' !! l = Heap.lists h !! l) ∧
       result ≠ records ∧
       Heap.lists h' !! result = Some out ∧
       out ≡ₚ refs ∧
       Heap.deref h' <$> out = sort_by_numeric_id (Heap.deref h <$> refs)).
Proof.
  split; [intros xs; apply sorted_perm|].
  intros h records refs Hrefs.
  unfold Heap.sort_by_numeric_id. rewrite Hrefs.
  set (result := fresh (dom (Heap.lists h))).
  assert (Hfresh : Heap.lists h !! result = None).
  { apply not_elem_of_dom, is_fresh. }
  assert (Hne : result ≠ records) by congruence.
  eexists _, _, _. split; [done|]. simpl.
  split; [done|]. split; [by rewrite lookup_insert_ne|].
  split; [intros l Hl; by rewrite lookup_insert_ne|].
  split; [done|]. split; [apply lookup_insert_eq|].
  split; [apply sorted_perm|].
  unfold sort_by_numeric_id. by rewrite <- sorted_fmap.
Qed.

Lemma sort_by_numeric_id_frame_witness :
  let h := Heap.Build {[ 0%nat := record_of_id "b_2";
                         1%nat := record_of_id "a_1" ]}
                      {[ 0%nat := [0; 1]%nat ]} in
  ∃ (result : Heap.ref) (h' : Heap.heap),
    Heap.sort_by_numeric_id h 0%nat = Some (result, h') ∧
    Heap.lists h' !! 0%nat = Some [0; 1]%nat ∧
    Heap.lists h' !! result = Some [1; 0]%nat.
Proof.
  intros h.
  assert (Hrefs : Heap.lists h !! 0%nat = Some [0; 1]%nat)
    by (vm_compute; reflexivity).
  destruct (proj2 sort_by_numeric_id_frame h 0%nat [0; 1]%nat Hrefs)
    as (result & h' & out & H1 & _ & H2 & _ & _ & H3 & _).
  exists result, h'. split; [exact H1|]. split; [exact H2|].
  revert H1. vm_compute. intros [= <- <-]. reflexivity.
Defined.









(** ** The sample size *)

Lemma num_samples_ge_1 (n : nat) (ratio : Q) : 1 ≤ num_samples n ratio.
Proof. unfold num_samples. lia. Qed.



Lemma num_samples_le (n : nat) (ratio : Q) :
  in_range ratio = true → (1 ≤ n)%nat → num_samples n ratio ≤ Z.of_nat n.
Proof.
  unfold in_range, num_samples, int_of_product.
  intros [Ha Hb]%andb_prop Hn.
  apply Z.ltb_lt in Ha. apply Z.leb_le in Hb.
  rewrite Z.quot_div_nonneg by lia.
  apply Z.max_lub; [lia|].
  apply Z.div_le_upper_bound; [lia|]. nia.
Qed.

(** ** [random.sample] returns as many items as it is asked for *)

Lemma last_is_Some {A} (pool : list A) :
  pool ≠ [] → ∃ y, List.last (Some <$> pool) None = Some y.
Proof.
  induction pool as [|a [|b pool] IH]; [done|by exists a|].
  intros _. destruct IH as [y Hy]; [done|]. by exists y.
Qed.

Lemma sample_pool_length {A} (k : nat) (pool : list A) (w : world) :
  (k ≤ length pool)%nat →
  ∃ l w', sample_pool pool k w = (Ok l, w') ∧ length l = k ∧
          fs w' = fs w ∧ stdout w' = stdout w.
Proof.
  revert pool w. induction k as [|k IH]; intros pool w Hk; simpl.
  { by exists [], w. }
  unfold bind.
  assert (Hj : ∃ j w1, randbelow (length pool) w = (Ok j, w1) ∧
                       (j < length pool)%nat ∧
                       fs w1 = fs w ∧ stdout w1 = stdout w).
  { unfold randbelow. destruct (entropy w) as [|x rest].
    - exists 0%nat, w. repeat split; lia.
    - eexists _, _. split; [done|]. simpl.
      split; [apply Nat.mod_upper_bound; lia|done]. }
  destruct Hj as (j & w1 & -> & Hj & Hfs1 & Hout1).
  destruct (lookup_lt_is_Some_2 pool j Hj) as [x ->].
  assert (Hlast : ∃ y, List.last (Some <$> pool) None = Some y).
  { apply last_is_Some. intros ->. simpl in Hk. lia. }
  destruct Hlast as [y ->].
  destruct (IH (take (length pool - 1) (<[j:=y]> pool)) w1)
    as (l & w' & -> & Hl & Hfs & Hout).
  { rewrite length_take, length_insert. lia. }
  exists (x :: l), w'. simpl. repeat split; [lia|congruence..].
Qed.

Lemma random_sample_length {A} (population : list A) (k : Z) (w : world) :
  0 ≤ k ≤ Z.of_nat (length population) →
  ∃ l w', random_sample population k w = (Ok l, w') ∧
          Z.of_nat (length l) = k ∧ fs w' = fs w ∧ stdout w' = stdout w.
Proof.
  intros Hk. unfold random_sample. rewrite decide_True by done.
  destruct (sample_pool_length (Z.to_nat k) population w)
    as (l & w' & -> & Hl & ?); [lia|].
  exists l, w'. split; [done|]. split; [lia|done].
Qed.

Lemma random_sample_too_large {A} (population : list A) (k : Z) (w : world) :
  ¬ (0 ≤ k ≤ Z.of_nat (length population)) →
  random_sample population k w =
    (Raise (ValueError "Sample larger than population or is negative"), w).
Proof. intros Hk. unfold random_sample. by rewrite decide_False. Qed.

(** ** [sample_records_with_answers] *)

Lemma build_answer_map_raise (answers : list record) (m : gmap value record) (e : exn) :
  build_answer_map answers m = Raise e → e = KeyError "id".
Proof.
  revert m. induction answers as [|a answers IH]; intros m; simpl; [done|].
  destruct (a !! "id"); [apply IH|congruence].
Qed.


Lemma collect_answers_raise (answer_map : gmap value record)
    (sampled acc : list record) (e : exn) :
  collect_answers answer_map sampled acc = Raise e → e = KeyError "id".
Proof.
  revert acc. induction sampled as [|r sampled IH]; intros acc; simpl; [done|].
  destruct (r !! "id"); [|congruence].
  destruct (answer_map !! _); apply IH.
Qed.

(** No top-level name of the module is [sampled_ids]. *)
Lemma sampled_ids_not_global : module_globals !! "sampled_ids" = None.
Proof. by vm_compute. Qed.

Lemma filter_answers_unbound (locals : gmap string pyobj) (answers : list record) :
  locals !! "sampled_ids" = None → answers ≠ [] →
  filter_answers locals answers = Raise (NameError "sampled_ids").
Proof.
  intros Hl Ha. destruct answers as [|a answers]; [done|].
  simpl. unfold load_name. by rewrite Hl, sampled_ids_not_global.
Qed.

Lemma filter_records_no_answers (records : list record) :
  filter_records_with_answers records (get_answer_ids []) = [].
Proof.
  unfold filter_records_with_answers, get_answer_ids. simpl.
  induction records as [|r records IH]; simpl; [done|].
  rewrite bool_decide_false by set_solver. done.
Qed.

(** Every run of the function ends in an exception: the KeyError of an
    answer or a record without [id], the ValueError of a sample larger than
    the population, or the NameError of line 122. *)
Lemma sample_records_with_answers_raises
    (records answers : list record) (sample_ratio : Q) (w : world) :
  let valid_records := filter_records_with_answers records (get_answer_ids answers) in
  ∃ e w', sample_records_with_answers records answers sample_ratio w = (Raise e, w') ∧
    fs w' = fs w ∧
    (e = KeyError "id" ∨
     (e = ValueError "Sample larger than population or is negative" ∧
      ¬ num_samples (length valid_records) sample_ratio ≤ Z.of_nat (length valid_records) ∧
      Forall (λ a : record, is_Some (a !! "id")) answers ∧ w' = w) ∨
     (e = NameError "sampled_ids" ∧ valid_records ≠ [])).
Proof.
  intros valid_records. unfold sample_records_with_answers, bind, lift.
  fold valid_records.
  destruct (build_answer_map answers ∅) as [answer_map|e] eqn:Hmap.
  2:{ exists e, w. apply build_answer_map_raise in Hmap. auto. }
  set (k := num_samples (length valid_records) sample_ratio).
  destruct (decide (0 ≤ k ≤ Z.of_nat (length valid_records))) as [Hk|Hk].
  2:{ rewrite random_sample_too_large by done.
      eexists _, w. split; [done|]. split; [done|]. right; left.
      pose proof (num_samples_ge_1 (length valid_records) sample_ratio).
      split; [done|]. split; [fold k; lia|]. split; [|done].
      clear -Hmap. revert Hmap. generalize (∅ : gmap value record).
      induction answers as [|a answers IH]; intros m; simpl; [done|].
      destruct (a !! "id") eqn:Ha; [|done].
      intros Hm. constructor; [by rewrite Ha|by eapply IH]. }
  destruct (random_sample_length valid_records k w Hk)
    as (sampled & w1 & -> & Hlen & Hfs1 & _).
  destruct (collect_answers answer_map (sort_by_numeric_id sampled) [])
    as [sampled_answers|e] eqn:Hcollect.
  2:{ exists e, w1. apply collect_answers_raise in Hcollect. auto. }
  assert (Hvalid : valid_records ≠ []).
  { intros Hnil. rewrite Hnil in Hk. simpl in Hk.
    pose proof (num_samples_ge_1 (length valid_records) sample_ratio).
    fold k in H. lia. }
  assert (Hanswers : answers ≠ []).
  { intros ->. apply Hvalid. apply filter_records_no_answers. }
  destruct (decide (length (sort_by_numeric_id sampled) ≠ length sampled_answers));
    unfold print, ret; simpl;
    (rewrite filter_answers_unbound;
     [|by rewrite !lookup_insert_ne, lookup_singleton_ne by done|done]);
    eexists _, _; (split; [done|]); (split; [done|]); auto.
Qed.

Lemma collect_answers_skips (answer_map : gmap value record)
    (sampled acc : list record) :
  Forall (λ r : record, is_Some (r !! "id")) sampled →
  ∃ out, collect_answers answer_map sampled acc = Ok out.
Proof.
  intros H. revert acc. induction H as [|r sampled [v Hv] _ IH]; intros acc; simpl.
  - by exists acc.
  - rewrite Hv. destruct (answer_map !! v); apply IH.
Qed.

(** C1: the function never returns the pair the specification describes.
    Line 122 reads the name [sampled_ids], which nothing binds, so every
    call ends in an exception; on one record with its answer and ratio 1 it
    is the NameError of that line. *)
Theorem sample_records_with_answers_never_returns :
  (∀ (records answers : list record) (sample_ratio : Q) (w : world),
     ∃ e w', sample_records_with_answers records answers sample_ratio w = (Raise e, w')) ∧
  (sample_records_with_answers
     [record_of_id "a_1"] [record_of_id "a_1"] 1 (World ∅ [] [])).1
  = Raise (NameError "sampled_ids").
Proof.
  split; [|by vm_compute].
  intros records answers sample_ratio w.
  destruct (sample_records_with_answers_raises records answers sample_ratio w)
    as (e & w' & H & _).
  by exists e, w'.
Qed.

(** C2: with an [id] in every answer, a ratio in (0, 1] and a filtered
    population that is not empty, the function raises all the same: the
    loop of lines 106-109 skips a record without an answer and returns, but
    line 122 then raises NameError (or line 108 KeyError, for a record
    without the key [id]). *)
Theorem sample_records_with_answers_raises_after_loop
    (records answers : list record) (sample_ratio : Q) (w : world) :
  Forall (λ a : record, is_Some (a !! "id")) answers →
  in_range sample_ratio = true →
  filter_records_with_answers records (get_answer_ids answers) ≠ [] →
  (∃ e w', sample_records_with_answers records answers sample_ratio w = (Raise e, w') ∧
           (e = NameError "sampled_ids" ∨ e = KeyError "id")) ∧
  (∀ (answer_map : gmap value record) (sampled : list record),
     Forall (λ r : record, is_Some (r !! "id")) sampled →
     ∃ out, collect_answers answer_map sampled [] = Ok out).
Proof.
  intros Hids Hratio Hvalid. split; [|intros; by apply collect_answers_skips].
  destruct (sample_records_with_answers_raises records answers sample_ratio w)
    as (e & w' & H & _ & [He|[(He & Hk & _)|(He & _)]]).
  - exists e, w'. auto.
  - exfalso. apply Hk, num_samples_le; [done|].
    destruct (filter_records_with_answers records (get_answer_ids answers));
      [done|simpl; lia].
  - exists e, w'. auto.
Qed.

Lemma sample_records_with_answers_raises_after_loop_witness :
  ∃ e w', sample_records_with_answers
            [record_of_id "a_1"; record_of_id "a_2"]
            [record_of_id "a_2"] (1#2) (World ∅ [] [7%nat]) = (Raise e, w') ∧
          (e = NameError "sampled_ids" ∨ e = KeyError "id").
Proof.
  refine (proj1 (sample_records_with_answers_raises_after_loop
           [record_of_id "a_1"; record_of_id "a_2"]
           [record_of_id "a_2"] (1#2) (World ∅ [] [7%nat]) _ _ _)).
  - constructor; [|constructor]. exists (VStr "a_2"). reflexivity.
  - reflexivity.
  - vm_compute. discriminate.
Defined.






(** ** Reasoning about statements *)

Section tame.
Context {S : Type} (R : relation S) `{!PreOrder R}.

Lemma tame_ret {A} (a : A) : tame R (ret a).
Proof. intros s r s' [= <- <-]. split; [reflexivity|done]. Qed.

Lemma tame_raise {A} (e : exn) : is_Exception e = true → tame R (@raise S A e).
Proof. intros He s r s' [= <- <-]. split; [reflexivity|congruence]. Qed.

Lemma tame_lift {A} (r : result A) :
  (∀ e, r = Raise e → is_Exception e = true) → tame R (lift r).
Proof. intros He s r' s' [= <- <-]. split; [reflexivity|done]. Qed.

Lemma tame_bind {A B} (c : M S A) (k : A → M S B) :
  tame R c → (∀ a, tame R (k a)) → tame R (bind c k).
Proof.
  intros Hc Hk s r s'. unfold bind.
  destruct (c s) as [[a|e] s1] eqn:Hcs; destruct (Hc _ _ _ Hcs) as [HR He].
  - intros Hks. destruct (Hk _ _ _ _ Hks) as [HR' He'].
    split; [by etrans|done].
  - intros [= <- <-]. split; [done|]. intros e0 [= <-]. by apply He.
Qed.

Lemma tame_try_except {A} (body : M S A) (handler : exn → M S A) :
  tame R body → (∀ e, tame R (handler e)) → tame R (try_except body handler).
Proof.
  intros Hb Hh s r s'. unfold try_except.
  destruct (body s) as [[a|e] s1] eqn:Hbs; destruct (Hb _ _ _ Hbs) as [HR He].
  - intros [= <- <-]. split; [done|]. intros e0 [=].
  - rewrite (He e eq_refl). intros Hhs.
    destruct (Hh _ _ _ _ Hhs) as [HR' He']. split; [by etrans|done].
Qed.

End tame.

Global Instance fs_evolves_preorder : PreOrder fs_evolves.
Proof.
  split.
  - intros m p. split; [by eauto|by left].
  - intros m1 m2 m3 H12 H23 p.
    destruct (H12 p) as [Hf12 Hc12], (H23 p) as [Hf23 Hc23]. split.
    + intros lines H1. destruct (Hf12 _ H1) as [lines2 H2]. by eapply Hf23.
    + destruct Hc23 as [->|?]; [done|by right].
Qed.

Global Instance evolves_preorder : PreOrder evolves.
Proof.
  split.
  - intros w. split; reflexivity.
  - intros w1 w2 w3 [? ?] [? ?]. split; by etrans.
Qed.

Global Instance frame_evolves_preorder : PreOrder frame_evolves.
Proof.
  split.
  - intros s. unfold frame_evolves. reflexivity.
  - intros s1 s2 s3. unfold frame_evolves. apply transitivity.
Qed.

Lemma add_child_evolves (parent : path) (child : string) (m : gmap path node) :
  fs_evolves m (add_child parent child m).
Proof.
  unfold add_child. destruct (m !! parent) as [[lines|children]|] eqn:Hp;
    try reflexivity.
  destruct (decide (child ∈ children)); [reflexivity|].
  intros p. destruct (decide (parent = p)) as [<-|Hne].
  - rewrite lookup_insert_eq. split; [by rewrite Hp|].
    right. by eexists.
  - rewrite lookup_insert_ne by done. split; [by eauto|by left].
Qed.

Lemma insert_evolves (p : path) (n : node) (m : gmap path node) :
  canonical n →
  (∀ lines, m !! p = Some (File lines) → ∃ lines', n = File lines') →
  fs_evolves m (<[p := n]> m).
Proof.
  intros Hn Hfile q. destruct (decide (p = q)) as [<-|Hne].
  - rewrite lookup_insert_eq. split; [|by right; eexists].
    intros lines Hl. destruct (Hfile _ Hl) as [lines' ->]. by eexists.
  - rewrite lookup_insert_ne by done. split; [by eauto|by left].
Qed.

Lemma makedirs_from_evolves (rest : list string) (parent : path)
    (m : gmap path node) :
  match makedirs_from parent rest m with
  | Ok m' => fs_evolves m m'
  | Raise e => is_Exception e = true
  end.
Proof.
  revert parent m. induction rest as [|c rest IH]; intros parent m; simpl.
  { reflexivity. }
  destruct (m !! (parent ++ [c])) as [[lines|children]|] eqn:Hcur.
  - by destruct rest.
  - apply IH.
  - specialize (IH (parent ++ [c])
                   (<[(parent ++ [c]) := Dir []]> (add_child parent c m))).
    destruct (makedirs_from _ rest _); [|done].
    etrans; [apply add_child_evolves|].
    etrans; [|exact IH].
    apply insert_evolves; [done|].
    intros lines Hl. exfalso.
    destruct (add_child_evolves parent c m (parent ++ [c])) as [_ [Heq|Hn]].
    + congruence.
    + unfold add_child in Hl, Hn.
      destruct (m !! parent) as [[?|children]|] eqn:Hp; try congruence.
      destruct (decide (c ∈ children)); [congruence|].
      destruct (decide (parent = parent ++ [c])) as [Heq|Hne].
      * apply (f_equal length) in Heq. rewrite length_app in Heq. simpl in Heq. lia.
      * rewrite lookup_insert_ne in Hl by done. congruence.
Qed.

(** *** The statements of the program are tame *)

Lemma tame_print (e : event) : tame evolves (print e).
Proof.
  intros w r w' [= <- <-]. split; [|done].
  split; simpl; [by apply prefix_app_r|reflexivity].
Qed.

Lemma tame_randbelow (n : nat) : tame evolves (randbelow n).
Proof.
  intros w r w'. unfold randbelow.
  destruct (entropy w); intros [= <- <-]; (split; [|done]); split; reflexivity.
Qed.

Lemma tame_sample_pool {A} (k : nat) (pool : list A) : tame evolves (sample_pool pool k).
Proof.
  revert pool. induction k as [|k IH]; intros pool; simpl.
  { apply tame_ret, _. }
  apply tame_bind; [apply _|apply tame_randbelow|]. intros j.
  destruct (pool !! j); [|apply tame_ret, _].
  destruct (List.last _ _); [|apply tame_ret, _].
  apply tame_bind; [apply _|apply IH|]. intros rest. apply tame_ret, _.
Qed.

Lemma tame_random_sample {A} (population : list A) (k : Z) :
  tame evolves (random_sample population k).
Proof.
  unfold random_sample. destruct (decide _).
  - apply tame_sample_pool.
  - by apply tame_raise; [apply _|].
Qed.

Lemma tame_path_exists (p : path) : tame evolves (path_exists p).
Proof. intros w r w' [= <- <-]. split; [reflexivity|done]. Qed.

Lemma tame_is_file (p : path) : tame evolves (is_file p).
Proof. intros w r w' [= <- <-]. split; [reflexivity|done]. Qed.

Lemma tame_glob (p : path) : tame evolves (glob p).
Proof. intros w r w' [= <- <-]. split; [reflexivity|done]. Qed.

Lemma tame_read_lines (p : path) : tame evolves (read_lines p).
Proof.
  intros w r w'. unfold read_lines.
  destruct (fs w !! p) as [[lines|children]|]; intros [= <- <-];
    (split; [reflexivity|]); intros e [= <-]; [done..|].
  by destruct (bool_decide _).
Qed.

Lemma tame_makedirs (p : path) : tame evolves (makedirs p).
Proof.
  intros w r w'. unfold makedirs.
  pose proof (makedirs_from_evolves p [] (fs w)) as H.
  destruct (makedirs_from [] p (fs w)); intros [= <- <-].
  - split; [|done]. split; [reflexivity|done].
  - split; [reflexivity|]. by intros e0 [= <-].
Qed.

Lemma tame_write_lines (p : path) (lines : list line) :
  canonical (File lines) → tame evolves (write_lines p lines).
Proof.
  intros Hc w r w'. unfold write_lines.
  destruct (fs w !! p) as [[old|children]|] eqn:Hp.
  - intros [= <- <-]. split; [|done]. split; [reflexivity|]. simpl.
    apply insert_evolves; [done|by eauto].
  - intros [= <- <-]. split; [reflexivity|]. by intros e [= <-].
  - destruct (bool_decide (p = [])).
    { intros [= <- <-]. split; [reflexivity|]. by intros e [= <-]. }
    destruct (is_dir (fs w) (dirname p)); intros [= <- <-].
    + split; [|done]. split; [reflexivity|]. simpl.
      etrans; [apply add_child_evolves|].
      apply insert_evolves; [done|by eauto].
    + split; [reflexivity|]. by intros e [= <-].
Qed.

Lemma loads_lines_raise (lines : list line) (records : list record) (e : exn) :
  loads_lines lines records = Raise e → is_Exception e = true.
Proof.
  revert records. induction lines as [|[r|text] lines IH]; intros records; simpl.
  - done.
  - apply IH.
  - by intros [= <-].
Qed.

Lemma tame_load_jsonl_file (p : path) : tame evolves (load_jsonl_file p).
Proof.
  unfold load_jsonl_file.
  apply tame_bind; [apply _|apply tame_read_lines|]. intros lines.
  apply tame_lift; [apply _|]. apply loads_lines_raise.
Qed.

Lemma tame_save_jsonl_file (records : list record) (p : path) :
  tame evolves (save_jsonl_file records p).
Proof.
  unfold save_jsonl_file.
  apply tame_bind; [apply _|apply tame_makedirs|]. intros _.
  apply tame_write_lines. eexists. split; [done|]. apply sorted_ordered.
Qed.

Lemma py_in_raise (v : value) (o : pyobj) (e : exn) :
  py_in v o = Raise e → is_Exception e = true.
Proof. destruct o; simpl; intros H; by simplify_eq. Qed.

Lemma filter_answers_raise (locals : gmap string pyobj) (answers : list record) (e : exn) :
  filter_answers locals answers = Raise e → is_Exception e = true.
Proof.
  induction answers as [|a answers IH]; simpl; [done|].
  destruct (load_name locals "sampled_ids") as [o|e'] eqn:Hname.
  - destruct (py_in _ o) as [keep|e''] eqn:Hin.
    + destruct (filter_answers locals answers); [done|].
      intros [= <-]. by apply IH.
    + intros [= <-]. by eapply py_in_raise.
  - intros [= <-]. unfold load_name in Hname.
    destruct (locals !! _); [done|].
    destruct (module_globals !! _); by simplify_eq.
Qed.

Lemma tame_sample_records_with_answers
    (records answers : list record) (sample_ratio : Q) :
  tame evolves (sample_records_with_answers records answers sample_ratio).
Proof.
  unfold sample_records_with_answers.
  apply tame_bind; [apply _| |]; [|intros answer_map].
  { apply tame_lift; [apply _|]. intros e He.
    by rewrite (build_answer_map_raise _ _ _ He). }
  apply tame_bind; [apply _|apply tame_random_sample|]. intros sampled.
  apply tame_bind; [apply _| |]; [|intros sampled_answers].
  { apply tame_lift; [apply _|]. intros e He.
    by rewrite (collect_answers_raise _ _ _ _ He). }
  apply tame_bind; [apply _| |]; [|intros [sampled' answers']].
  { destruct (decide _); [|apply tame_ret, _].
    apply tame_bind; [apply _|apply tame_print|]. intros _. apply tame_ret, _. }
  apply tame_bind; [apply _| |]; [|intros filtered; apply tame_ret, _].
  apply tame_lift; [apply _|]. apply filter_answers_raise.
Qed.

Lemma tame_io {A} (c : M world A) : tame evolves c → tame frame_evolves (io c).
Proof.
  intros Hc [l w] r [l' w']. unfold io. simpl.
  destruct (c w) as [r1 w1] eqn:Hcw. intros [= <- <- <-].
  apply (Hc _ _ _ Hcw).
Qed.

Lemma tame_load_records : tame frame_evolves load_records.
Proof.
  intros [l w] r s'. unfold load_records. simpl.
  destruct l; intros [= <- <-]; (split; [reflexivity|]); [done|].
  by intros e [= <-].
Qed.

Lemma tame_store_records (records : list record) :
  tame frame_evolves (store_records records).
Proof.
  intros [l w] r s'. unfold store_records. simpl. intros [= <- <-].
  split; [|done]. unfold frame_evolves. simpl. reflexivity.
Qed.

Lemma tame_with_frame {A} (c : M frame A) : tame frame_evolves c → tame evolves (with_frame c).
Proof.
  intros Hc w r w'. unfold with_frame.
  destruct (c (None, w)) as [r1 s1] eqn:Hcw. intros [= <- <-].
  apply (Hc _ _ _ Hcw).
Qed.

Lemma tame_process_file (src_dir dest_dir : path) (sample_rate : Q) (file_path : path) :
  tame frame_evolves (process_file src_dir dest_dir sample_rate file_path).
Proof.
  unfold process_file.
  repeat first
    [ apply tame_ret; apply _
    | apply tame_load_records
    | apply tame_store_records
    | apply tame_io
    | apply tame_print
    | apply tame_makedirs
    | apply tame_path_exists
    | apply tame_load_jsonl_file
    | apply tame_save_jsonl_file
    | apply tame_random_sample
    | apply tame_sample_records_with_answers
    | apply tame_bind; [apply _| |intros ?]
    | match goal with |- tame _ (if ?b then _ else _) => destruct b end ].
Qed.

Lemma tame_main_file (data_dir sample_dir : path) (sample_ratio : Q) (file_path : path) :
  tame evolves (main_file data_dir sample_dir sample_ratio file_path).
Proof.
  unfold main_file.
  repeat first
    [ apply tame_ret; apply _
    | apply tame_print
    | apply tame_makedirs
    | apply tame_path_exists
    | apply tame_load_jsonl_file
    | apply tame_save_jsonl_file
    | apply tame_random_sample
    | apply tame_sample_records_with_answers
    | apply tame_bind; [apply _| |intros ?]
    | match goal with |- tame _ (if ?b then _ else _) => destruct b end ].
Qed.

(** ** The directory orchestrator *)

(** C5: a [.json] file is not loaded.  The only assignment to [records] is
    guarded by the test for [.jsonl], so a [.json] file listed after
    [a.jsonl] is written with the records of [a.jsonl], and a [.json] file
    listed first ends in the logged UnboundLocalError and is not written. *)
Theorem process_directory_json_not_loaded :
  let a := File [JsonLine (record_of_id "a_1")] in
  let b := File [JsonLine (record_of_id "b_1")] in
  let both := World {[ ["src"] := Dir ["a.jsonl"; "b.json"];
                       ["src"; "a.jsonl"] := a; ["src"; "b.json"] := b ]} [] [] in
  let alone := World {[ ["src"] := Dir ["b.json"]; ["src"; "b.json"] := b ]} [] [] in
  fs (process_directory ["src"] ["out"] 1 both).2 !! ["out"; "b.json"] = Some a ∧
  stdout (process_directory ["src"] ["out"] 1 alone).2
    = [Processing ["src"; "b.json"];
       ErrorProcessing ["src"; "b.json"] (UnboundLocalError "records")] ∧
  fs (process_directory ["src"] ["out"] 1 alone).2 !! ["out"; "b.json"] = None.
Proof. by vm_compute. Qed.



Lemma tame_process_files (src_dir dest_dir : path) (sample_rate : Q)
    (files : list path) :
  tame frame_evolves (process_files src_dir dest_dir sample_rate files).
Proof.
  induction files as [|file_path rest IH]; simpl.
  { apply tame_ret, _. }
  apply tame_bind; [apply _|apply tame_io, tame_is_file|]. intros regular.
  destruct (negb regular); [done|].
  destruct (negb (eligible file_path)); [done|].
  apply tame_bind; [apply _|apply tame_io, tame_print|]. intros _.
  apply tame_bind; [apply _| |done].
  apply tame_try_except; [apply _|apply tame_process_file|].
  intros e. apply tame_io, tame_print.
Qed.

Lemma tame_process_directory (src_dir dest_dir : path) (sample_rate : Q) :
  tame evolves (process_directory src_dir dest_dir sample_rate).
Proof.
  unfold process_directory.
  apply tame_bind; [apply _|apply tame_path_exists|]. intros found.
  destruct (negb found); [apply tame_print|].
  apply tame_bind; [apply _|apply tame_makedirs|]. intros _.
  apply tame_bind; [apply _|apply tame_glob|]. intros files.
  apply tame_with_frame, tame_process_files.
Qed.




(** ** What the adapter writes *)

Lemma compare_refl (s : string) : String.compare s s = Eq.
Proof.
  pose proof (String.compare_antisym s s) as H.
  destruct (String.compare s s); simpl in H; congruence.
Qed.

Lemma compare_Lt_le (s1 s2 : string) :
  String.compare s1 s2 = Lt → String.le s1 s2 ∧ s1 ≠ s2.
Proof.
  intros H. split.
  - unfold String.le, String.leb. by rewrite H.
  - intros ->. rewrite compare_refl in H. done.
Qed.

Lemma compare_Lt_trans (s1 s2 s3 : string) :
  String.compare s1 s2 = Lt → String.compare s2 s3 = Lt → String.compare s1 s3 = Lt.
Proof.
  intros [H12 Hne12]%compare_Lt_le [H23 Hne23]%compare_Lt_le.
  assert (H13 : String.le s1 s3) by (by etrans).
  destruct (String.compare s1 s3) eqn:Hc; [| done |].
  - apply String.compare_eq_iff in Hc as ->.
    destruct Hne12. by apply (anti_symm String.le).
  - unfold String.le, String.leb in H13. by rewrite Hc in H13.
Qed.

Lemma key_lt_false (a b : sort_key) :
  key_lt b a = false ↔
  String.compare a.1 b.1 = Lt ∨ (a.1 = b.1 ∧ a.2 ≤ b.2).
Proof.
  unfold key_lt. rewrite (String.compare_antisym a.1 b.1).
  destruct (String.compare b.1 a.1) eqn:Hc; simpl.
  - apply String.compare_eq_iff in Hc. rewrite Z.ltb_ge.
    split; [by auto|]. by intros [?|[_ ?]].
  - split; [done|]. intros [?|[Heq _]]; [done|].
    rewrite Heq, compare_refl in Hc. done.
  - split; auto.
Qed.

Lemma key_lt_false_trans (a b c : sort_key) :
  key_lt b a = false → key_lt c b = false → key_lt c a = false.
Proof.
  rewrite !key_lt_false.
  intros [Hab|[Hab Hab']] [Hbc|[Hbc Hbc']].
  - left. by eapply compare_Lt_trans.
  - left. by rewrite <- Hbc.
  - left. by rewrite Hab.
  - right. split; [congruence|lia].
Qed.

(** In an ordered list no element has a key smaller than an earlier one. *)
Lemma ordered_strongly {A} (key : A → sort_key) (l : list A) :
  ordered key l → StronglySorted (λ x y, key_lt (key y) (key x) = false) l.
Proof.
  apply Sorted_StronglySorted.
  intros x y z. apply key_lt_false_trans.
Qed.

Lemma save_jsonl_file_writes (records : list record) (p : path) (w w' : world) :
  save_jsonl_file records p w = (Ok (), w') →
  fs w' !! p = Some (File (JsonLine <$> sort_by_numeric_id records)).
Proof.
  unfold save_jsonl_file, bind.
  destruct (makedirs (dirname p) w) as [[[]|e] w1]; [|done].
  unfold write_lines.
  destruct (fs w1 !! p) as [[old|children]|]; [| done |].
  - intros [= <-]. simpl. apply lookup_insert_eq.
  - destruct (bool_decide (p = [])); [done|].
    destruct (is_dir _ _); [|done].
    intros [= <-]. simpl. apply lookup_insert_eq.
Qed.

Lemma tame_main_files (data_dir sample_dir : path) (sample_ratio : Q)
    (files : list path) :
  tame evolves (main_files data_dir sample_dir sample_ratio files).
Proof.
  induction files as [|file_path rest IH]; simpl.
  { apply tame_ret, _. }
  apply tame_bind; [apply _|apply tame_is_file|]. intros regular.
  destruct (negb regular); [done|].
  apply tame_bind; [apply _|apply tame_print|]. intros _.
  apply tame_bind; [apply _| |done].
  apply tame_try_except; [apply _|apply tame_main_file|].
  intros e. apply tame_print.
Qed.

Lemma tame_main_sampling (base_dir : path) (percentage : Q) :
  tame evolves (main_sampling base_dir percentage).
Proof.
  unfold main_sampling.
  destruct (negb _); [by apply tame_raise; [apply _|]|].
  apply tame_bind; [apply _|apply tame_makedirs|]. intros _.
  apply tame_bind; [apply _|apply tame_glob|]. intros entries.
  apply tame_main_files.
Qed.

(** C10: what [save_jsonl_file] writes is the collection sorted by the
    Composite Sort Key, whatever the order it was given in: the file holds
    the records of the collection, each once, and no record has a key
    smaller than a record before it.  Every file a run of
    [process_directory] or of the loop of [main] creates or changes goes
    through it, so each of them is in that order on disk. *)
Theorem saved_files_are_sorted :
  (∀ (records : list record) (p : path) (w w' : world),
     save_jsonl_file records p w = (Ok (), w') →
     ∃ stored,
       fs w' !! p = Some (File (JsonLine <$> stored)) ∧
       stored ≡ₚ records ∧
       StronglySorted
         (λ x y, key_lt (extract_numeric_id y) (extract_numeric_id x) = false) stored) ∧
  (∀ (src_dir dest_dir : path) (sample_rate : Q) (w w' : world) (r : result unit),
     process_directory src_dir dest_dir sample_rate w = (r, w') →
     ∀ p, fs w' !! p = fs w !! p ∨ ∃ n, fs w' !! p = Some n ∧ canonical n) ∧
  (∀ (base_dir : path) (percentage : Q) (w w' : world) (r : result unit),
     main_sampling base_dir percentage w = (r, w') →
     ∀ p, fs w' !! p = fs w !! p ∨ ∃ n, fs w' !! p = Some n ∧ canonical n).
Proof.
  split; [|split].
  - intros records p w w' Hsave. exists (sort_by_numeric_id records).
    split; [by eapply save_jsonl_file_writes|].
    split; [apply sorted_perm|].
    apply ordered_strongly, sorted_ordered.
  - intros src_dir dest_dir sample_rate w w' r Hrun p.
    destruct (tame_process_directory _ _ _ _ _ _ Hrun) as [[_ Hfs] _].
    apply Hfs.
  - intros base_dir percentage w w' r Hrun p.
    destruct (tame_main_sampling _ _ _ _ _ Hrun) as [[_ Hfs] _].
    apply Hfs.
Qed.

Lemma saved_files_are_sorted_witness :
  let records := [record_of_id "b_2"; record_of_id "a_10"; record_of_id "a_9"] in
  let w := World ∅ [] [] in
  ∃ stored,
    fs (save_jsonl_file records ["out"; "f.jsonl"] w).2 !! ["out"; "f.jsonl"]
      = Some (File (JsonLine <$> stored)) ∧
    stored ≡ₚ records.
Proof.
  intros records w.
  destruct (proj1 saved_files_are_sorted records ["out"; "f.jsonl"] w
              (save_jsonl_file records ["out"; "f.jsonl"] w).2)
    as (stored & Hfile & Hperm & _).
  - vm_compute. reflexivity.
  - exists stored. split; [exact Hfile|exact Hperm].
Defined.

(** * Further properties of the code *)

(** ** The order [sort_by_numeric_id] gives *)

Lemma insert_by_filter {A} (key : A → sort_key) (k : sort_key) (x : A) (l : list A) :
  List.filter (λ a, bool_decide (key a = k)) (insert_by key x l)
  = List.filter (λ a, bool_decide (key a = k)) (x :: l).
Proof.
  induction l as [|y l IH]; [done|].
  cbn [insert_by]. destruct (key_lt (key y) (key x)) eqn:Hlt; [|done].
  cbn [List.filter] in *.
  destruct (bool_decide (key y = k)) eqn:Hy, (bool_decide (key x = k)) eqn:Hx;
    rewrite IH; try done.
  apply bool_decide_eq_true in Hy, Hx.
  rewrite Hy, Hx, key_lt_irrefl in Hlt. done.
Qed.

Lemma sorted_filter {A} (key : A → sort_key) (k : sort_key) (l : list A) :
  List.filter (λ a, bool_decide (key a = k)) (sorted key l)
  = List.filter (λ a, bool_decide (key a = k)) l.
Proof.
  induction l as [|x l IH]; [done|].
  cbn [sorted]. rewrite insert_by_filter. cbn [List.filter]. by rewrite IH.
Qed.

(** X1: the sort is stable: the records that share a key come out in the
    order they went in. *)
Theorem sort_by_numeric_id_stable (records : list record) (k : sort_key) :
  List.filter (λ r, bool_decide (extract_numeric_id r = k)) (sort_by_numeric_id records)
  = List.filter (λ r, bool_decide (extract_numeric_id r = k)) records.
Proof. apply sorted_filter. Qed.

Lemma StronglySorted_lookup_lt {A} (R : A → A → Prop) (l : list A) (i j : nat) (x y : A) :
  StronglySorted R l → (i < j)%nat → l !! i = Some x → l !! j = Some y → R x y.
Proof.
  intros Hl. revert i j. induction Hl as [|a l Hl IH Hall]; intros i j Hij Hi Hj.
  { by rewrite lookup_nil in Hi. }
  destruct j as [|j]; [lia|]. destruct i as [|i]; simpl in *.
  - injection Hi as ->. rewrite Forall_forall in Hall.
    apply Hall. apply list_elem_of_lookup. eauto.
  - apply (IH i j); [lia|done..].
Qed.

(** X2: in the sorted list a record comes before another only when its
    prefix is the smaller string or, the prefixes being equal, its number
    is not the larger: records of one prefix are in ascending numeric
    order, so ["a_9"] is before ["a_10"]. *)
Theorem sort_by_numeric_id_order (records : list record) (i j : nat) (x y : record) :
  (i < j)%nat →
  sort_by_numeric_id records !! i = Some x →
  sort_by_numeric_id records !! j = Some y →
  String.compare (extract_numeric_id x).1 (extract_numeric_id y).1 = Lt ∨
  ((extract_numeric_id x).1 = (extract_numeric_id y).1 ∧
   (extract_numeric_id x).2 ≤ (extract_numeric_id y).2).
Proof.
  intros Hij Hi Hj. apply key_lt_false.
  apply (StronglySorted_lookup_lt
           (λ x y, key_lt (extract_numeric_id y) (extract_numeric_id x) = false)
           (sort_by_numeric_id records) i j); [|done..].
  apply ordered_strongly, sorted_ordered.
Qed.

Lemma sort_by_numeric_id_order_witness :
  String.compare
    (extract_numeric_id (record_of_id "a_9")).1
    (extract_numeric_id (record_of_id "a_10")).1 = Lt ∨
  ((extract_numeric_id (record_of_id "a_9")).1
     = (extract_numeric_id (record_of_id "a_10")).1 ∧
   (extract_numeric_id (record_of_id "a_9")).2
     ≤ (extract_numeric_id (record_of_id "a_10")).2).
Proof.
  apply (sort_by_numeric_id_order
           [record_of_id "b_1"; record_of_id "a_10"; record_of_id "a_9"] 0 1).
  - lia.
  - vm_compute. reflexivity.
  - vm_compute. reflexivity.
Defined.




(** ** Splitting and joining an id *)







(** ** Matching records and answers *)

Lemma elem_of_filter_records (records : list record) (ids : gset value) (r : record) :
  r ∈ filter_records_with_answers records ids ↔ r ∈ records ∧ get_id r ∈ ids.
Proof.
  unfold filter_records_with_answers.
  rewrite !list_elem_of_In, filter_In, bool_decide_eq_true. done.
Qed.

Lemma filter_records_sublist (records : list record) (ids : gset value) :
  filter_records_with_answers records ids `sublist_of` records.
Proof.
  unfold filter_records_with_answers.
  induction records as [|r records IH]; simpl; [done|].
  destruct (bool_decide _); by constructor.
Qed.

Lemma elem_of_valid_records (records answers : list record) (r : record) :
  r ∈ filter_records_with_answers records (get_answer_ids answers) ↔
  r ∈ records ∧ ∃ a, a ∈ answers ∧ get_id a = get_id r.
Proof.
  rewrite elem_of_filter_records. unfold get_answer_ids.
  rewrite elem_of_list_to_set, list_elem_of_fmap.
  split.
  - intros [Hr (a & Heq & Ha)]. eauto.
  - intros [Hr (a & Ha & Heq)]. eauto.
Qed.

(** X5: the records kept for sampling are the records whose id is the id of
    some answer, in the order of the input; their ids are the ids the
    records and the answers have in common. *)
Theorem filter_records_with_answers_ids (records answers : list record) :
  filter_records_with_answers records (get_answer_ids answers) `sublist_of` records ∧
  (∀ r, r ∈ filter_records_with_answers records (get_answer_ids answers) ↔
        r ∈ records ∧ ∃ a, a ∈ answers ∧ get_id a = get_id r) ∧
  get_record_ids (filter_records_with_answers records (get_answer_ids answers))
  = get_record_ids records ∩ get_answer_ids answers.
Proof.
  split; [apply filter_records_sublist|]. split.
  - intros r. apply elem_of_valid_records.
  - apply set_eq. intros v. unfold get_record_ids.
    rewrite elem_of_intersection, !elem_of_list_to_set, !list_elem_of_fmap.
    split.
    + intros (r & -> & [Hr Hid]%elem_of_filter_records). eauto.
    + intros [(r & -> & Hr) Hid]. exists r. split; [done|].
      by apply elem_of_filter_records.
Qed.

(** X6: a record without the key [id] counts as having an answer as soon as
    one answer has no [id] either, or a null one: [get] gives [None] for
    both. *)
Theorem filter_records_with_answers_missing_id
    (records answers : list record) (r a : record) :
  r ∈ records → a ∈ answers →
  r !! "id" = None →
  a !! "id" = None ∨ a !! "id" = Some VNone →
  r ∈ filter_records_with_answers records (get_answer_ids answers).
Proof.
  intros Hr Ha Hrid Haid. apply elem_of_filter_records. split; [done|].
  unfold get_answer_ids. rewrite elem_of_list_to_set, list_elem_of_fmap.
  exists a. split; [|done]. unfold get_id. rewrite Hrid.
  by destruct Haid as [-> | ->].
Qed.

Lemma filter_records_with_answers_missing_id_witness :
  (∅ : record) ∈ filter_records_with_answers
                   [record_of_id "a_1"; ∅]
                   (get_answer_ids [{[ "id" := VNone ]}]).
Proof.
  apply (filter_records_with_answers_missing_id _ _ ∅ {[ "id" := VNone ]}).
  - set_solver.
  - set_solver.
  - reflexivity.
  - right. reflexivity.
Defined.

Lemma build_answer_map_lookup (answers : list record) (m0 m : gmap value record) :
  build_answer_map answers m0 = Ok m →
  (∀ a, a ∈ answers → is_Some (m !! get_id a)) ∧
  (∀ v, is_Some (m0 !! v) → is_Some (m !! v)) ∧
  (∀ v a, m !! v = Some a → m0 !! v = Some a ∨ (a ∈ answers ∧ a !! "id" = Some v)).
Proof.
  revert m0. induction answers as [|a0 answers IH]; intros m0; simpl.
  { intros [= <-]. split; [by intros a ?%elem_of_nil|]. split; [done|by left]. }
  destruct (a0 !! "id") as [v0|] eqn:Hid; [|done].
  intros Hm. destruct (IH _ Hm) as (Hin & Hmono & Hinv). split; [|split].
  - intros a [->|Ha]%elem_of_cons; [|by apply Hin].
    apply Hmono. unfold get_id. rewrite Hid. simpl.
    rewrite lookup_insert_eq. by eexists.
  - intros v Hv. apply Hmono. rewrite lookup_insert.
    destruct (decide (v0 = v)); [by eexists|done].
  - intros v a Hva. destruct (Hinv _ _ Hva) as [H0|[Ha Hid']].
    + rewrite lookup_insert in H0. destruct (decide (v0 = v)) as [<-|].
      * injection H0 as <-. right. split; [by left|done].
      * by left.
    + right. split; [by right|done].
Qed.

Lemma collect_answers_aligned (answers : list record) (m : gmap value record)
    (sampled acc out : list record) :
  (∀ v a, m !! v = Some a → a ∈ answers ∧ a !! "id" = Some v) →
  Forall (λ r, is_Some (m !! get_id r)) sampled →
  collect_answers m sampled acc = Ok out →
  ∃ found, out = acc ++ found ∧ length found = length sampled ∧
           (λ a : record, a !! "id") <$> found = (λ r : record, r !! "id") <$> sampled ∧
           Forall (λ a, a ∈ answers) found.
Proof.
  intros Hinv Hall. revert acc. induction Hall as [|r sampled [a Ha] _ IH]; intros acc; simpl.
  { intros [= <-]. exists []. by rewrite app_nil_r. }
  destruct (r !! "id") as [v|] eqn:Hid; [|done].
  unfold get_id in Ha. rewrite Hid in Ha. simpl in Ha. rewrite Ha.
  intros Hrun. destruct (IH _ Hrun) as (found & -> & Hlen & Hids & Hin).
  destruct (Hinv _ _ Ha) as [Hain Haid].
  exists (a :: found). rewrite <- app_assoc. split; [done|].
  split; [simpl; lia|]. split; [|by constructor].
  rewrite fmap_cons, Hids, Haid. done.
Qed.

(** X7: the mapping of line 96 has an entry for every answer, so the loop of
    lines 106-109 finds an answer for each record that passed the filter:
    when it returns, the answers it collected are answers of the input, as
    many as the records and with the same ids position by position, and
    the branch of lines 112-119 that truncates both lists is not taken. *)
Theorem collect_answers_pairs_up
    (records answers sampled sampled_answers : list record)
    (answer_map : gmap value record) :
  build_answer_map answers ∅ = Ok answer_map →
  Forall (λ r, r ∈ filter_records_with_answers records (get_answer_ids answers)) sampled →
  collect_answers answer_map sampled [] = Ok sampled_answers →
  length sampled_answers = length sampled ∧
  (λ a : record, a !! "id") <$> sampled_answers
  = (λ r : record, r !! "id") <$> sampled ∧
  Forall (λ a, a ∈ answers) sampled_answers.
Proof.
  intros Hmap Hsampled Hcollect.
  destruct (build_answer_map_lookup _ _ _ Hmap) as (Hin & _ & Hinv).
  destruct (collect_answers_aligned answers answer_map sampled [] sampled_answers)
    as (found & -> & Hlen & Hids & Hall); [| |done|done].
  - intros v a Hva. destruct (Hinv _ _ Hva) as [H0|?]; [|done].
    by rewrite lookup_empty in H0.
  - eapply Forall_impl; [exact Hsampled|]. simpl. intros r Hr.
    apply elem_of_valid_records in Hr as (_ & a & Ha & <-).
    by apply Hin.
Qed.

Lemma collect_answers_pairs_up_witness :
  length [record_of_id "a_2"] = length [record_of_id "a_2"] ∧
  (λ a : record, a !! "id") <$> [record_of_id "a_2"]
  = (λ r : record, r !! "id") <$> [record_of_id "a_2"] ∧
  Forall (λ a, a ∈ [record_of_id "a_1"; record_of_id "a_2"]) [record_of_id "a_2"].
Proof.
  apply (collect_answers_pairs_up
           [record_of_id "a_2"; record_of_id "a_3"]
           [record_of_id "a_1"; record_of_id "a_2"]
           [record_of_id "a_2"] [record_of_id "a_2"]
           (<[VStr "a_2" := record_of_id "a_2"]>
              (<[VStr "a_1" := record_of_id "a_1"]> ∅))).
  - reflexivity.
  - constructor; [|constructor]. vm_compute. left.
  - vm_compute. reflexivity.
Defined.

(** ** Drawing without replacement *)







(** ** The record store adapter *)

Lemma loads_lines_json (records acc : list record) :
  loads_lines (JsonLine <$> records) acc = Ok (acc ++ records).
Proof.
  revert acc. induction records as [|r records IH]; intros acc; simpl.
  - by rewrite app_nil_r.
  - rewrite IH, <- app_assoc. done.
Qed.

Lemma loads_lines_bad (records acc : list record) (text : string) (rest : list line) :
  loads_lines ((JsonLine <$> records) ++ BadLine text :: rest) acc
  = Raise (JSONDecodeError text).
Proof.
  revert acc. induction records as [|r records IH]; intros acc; simpl; [done|].
  apply IH.
Qed.

Lemma load_jsonl_file_json (p : path) (records : list record) (w : world) :
  fs w !! p = Some (File (JsonLine <$> records)) →
  load_jsonl_file p w = (Ok records, w).
Proof.
  intros Hp. unfold load_jsonl_file, bind, read_lines, lift. rewrite Hp.
  by rewrite loads_lines_json.
Qed.

Lemma load_jsonl_file_reads_aux (p : path) (w : world) :
  (load_jsonl_file p w).2 = w ∧
  (∀ records, fs w !! p = Some (File (JsonLine <$> records)) →
     load_jsonl_file p w = (Ok records, w)) ∧
  (∀ records text rest,
     fs w !! p = Some (File ((JsonLine <$> records) ++ BadLine text :: rest)) →
     load_jsonl_file p w = (Raise (JSONDecodeError text), w)) ∧
  (fs w !! p = None → p ≠ [] →
     load_jsonl_file p w = (Raise (FileNotFoundError p), w)).
Proof.
  split; [|split; [|split]].
  - unfold load_jsonl_file, bind, read_lines, lift.
    by destruct (fs w !! p) as [[lines|children]|].
  - intros records. apply load_jsonl_file_json.
  - intros records text rest Hp.
    unfold load_jsonl_file, bind, read_lines, lift. rewrite Hp.
    by rewrite loads_lines_bad.
  - intros Hp Hne. unfold load_jsonl_file, bind, read_lines. rewrite Hp.
    by rewrite bool_decide_false.
Qed.



(** X10: what was saved is what a load gives back, in sorted order; and
    saving what was loaded again leaves the file as it is. *)
Theorem save_then_load (records : list record) (p : path) (w w' : world) :
  save_jsonl_file records p w = (Ok (), w') →
  load_jsonl_file p w' = (Ok (sort_by_numeric_id records), w') ∧
  (∀ w'', save_jsonl_file (sort_by_numeric_id records) p w' = (Ok (), w'') →
          fs w'' !! p = fs w' !! p).
Proof.
  intros Hsave. pose proof (save_jsonl_file_writes _ _ _ _ Hsave) as Hfile.
  split; [by apply load_jsonl_file_json|].
  intros w'' Hsave'. rewrite (save_jsonl_file_writes _ _ _ _ Hsave'), Hfile.
  unfold sort_by_numeric_id.
  by rewrite (sorted_of_ordered _ _ (sorted_ordered extract_numeric_id records)).
Qed.

Lemma save_then_load_witness :
  let records := [record_of_id "b_2"; record_of_id "a_10"; record_of_id "a_9"] in
  let p := ["out"; "f.jsonl"] in
  let w' := (save_jsonl_file records p (World ∅ [] [])).2 in
  load_jsonl_file p w'
  = (Ok [record_of_id "a_9"; record_of_id "a_10"; record_of_id "b_2"], w').
Proof.
  intros records p w'.
  refine (proj1 (save_then_load records p (World ∅ [] []) w' _)).
  vm_compute. reflexivity.
Defined.

(** *** Creating directories *)

Global Instance grows_preorder : PreOrder grows.
Proof.
  split.
  - intros m q. split; [done|by eauto].
  - intros m1 m2 m3 H12 H23 q.
    destruct (H12 q) as [Hf12 Hd12], (H23 q) as [Hf23 Hd23]. split.
    + intros lines. by rewrite Hf23, Hf12.
    + intros cs H1. destruct (Hd12 _ H1) as [cs2 H2]. by eapply Hd23.
Qed.

Lemma add_child_grows (parent : path) (child : string) (m : gmap path node) :
  grows m (add_child parent child m).
Proof.
  unfold add_child. destruct (m !! parent) as [[lines|children]|] eqn:Hp;
    try reflexivity.
  destruct (decide (child ∈ children)); [reflexivity|].
  intros q. destruct (decide (parent = q)) as [<-|Hne].
  - rewrite lookup_insert_eq, Hp. split; [done|by eauto].
  - rewrite lookup_insert_ne by done. split; [done|by eauto].
Qed.

Lemma add_child_other (parent : path) (child : string) (m : gmap path node) (q : path) :
  q ≠ parent → add_child parent child m !! q = m !! q.
Proof.
  intros Hne. unfold add_child.
  destruct (m !! parent) as [[lines|children]|]; try done.
  destruct (decide (child ∈ children)); [done|].
  by rewrite lookup_insert_ne.
Qed.

Lemma mkdir_grows (parent : path) (c : string) (m : gmap path node) :
  m !! (parent ++ [c]) = None →
  grows m (<[parent ++ [c] := Dir []]> (add_child parent c m)).
Proof.
  intros Hcur. etrans; [apply add_child_grows|].
  intros q. destruct (decide (parent ++ [c] = q)) as [<-|Hne].
  - assert (Hne : parent ++ [c] ≠ parent).
    { intros Heq. apply (f_equal length) in Heq. rewrite length_app in Heq.
      simpl in Heq. lia. }
    rewrite lookup_insert_eq, (add_child_other _ _ _ _ Hne), Hcur.
    split; [done|]. intros cs [=].
  - rewrite lookup_insert_ne by done. split; [done|by eauto].
Qed.

Lemma makedirs_from_grows (rest : list string) (parent : path) (m m' : gmap path node) :
  makedirs_from parent rest m = Ok m' → grows m m'.
Proof.
  revert parent m. induction rest as [|c rest IH]; intros parent m; simpl.
  { by intros [= <-]. }
  destruct (m !! (parent ++ [c])) as [[lines|children]|] eqn:Hcur; [done| |].
  - apply IH.
  - intros Hrun. etrans; [by apply mkdir_grows|]. by eapply IH.
Qed.

Lemma prefix_snoc_step (parent : path) (c : string) (rest : list string) (k : nat) :
  (parent ++ [c]) ++ take k rest = parent ++ take (S k) (c :: rest).
Proof. by rewrite <- app_assoc. Qed.

Lemma makedirs_from_dirs (rest : list string) (parent : path) (m m' : gmap path node) :
  makedirs_from parent rest m = Ok m' → dirs_exist m' parent rest.
Proof.
  revert parent m. induction rest as [|c rest IH]; intros parent m; simpl.
  { intros _ k Hk. simpl in Hk. lia. }
  assert (Hstep : ∀ m1, makedirs_from (parent ++ [c]) rest m1 = Ok m' →
                        (∃ cs, m1 !! (parent ++ [c]) = Some (Dir cs)) →
                        dirs_exist m' parent (c :: rest)).
  { intros m1 Hrun [cs Hcs] k Hk. destruct k as [|k]; [lia|].
    rewrite <- prefix_snoc_step. destruct k as [|k].
    - rewrite take_0, app_nil_r.
      apply (proj2 (makedirs_from_grows _ _ _ _ Hrun (parent ++ [c])) _ Hcs).
    - apply (IH _ _ Hrun). simpl in Hk. lia. }
  destruct (m !! (parent ++ [c])) as [[lines|children]|] eqn:Hcur; [done| |].
  - intros Hrun. apply (Hstep m Hrun). by eexists.
  - intros Hrun. apply (Hstep _ Hrun). rewrite lookup_insert_eq. by eexists.
Qed.

Lemma makedirs_from_frame (rest : list string) (parent : path) (m m' : gmap path node) :
  makedirs_from parent rest m = Ok m' →
  ∀ q, ¬ q `prefix_of` (parent ++ rest) → m' !! q = m !! q.
Proof.
  revert parent m. induction rest as [|c rest IH]; intros parent m; simpl.
  { by intros [= <-]. }
  assert (Happ : (parent ++ [c]) ++ rest = parent ++ c :: rest)
    by (by rewrite <- app_assoc).
  destruct (m !! (parent ++ [c])) as [[lines|children]|] eqn:Hcur; [done| |].
  - intros Hrun q Hq. apply (IH _ _ Hrun). by rewrite Happ.
  - intros Hrun q Hq. rewrite (IH _ _ Hrun) by (by rewrite Happ).
    rewrite lookup_insert_ne.
    + apply add_child_other. intros ->. apply Hq. by apply prefix_app_r.
    + intros <-. apply Hq. rewrite <- Happ. by apply prefix_app_r.
Qed.

Lemma makedirs_from_existing (rest : list string) (parent : path) (m : gmap path node) :
  dirs_exist m parent rest → makedirs_from parent rest m = Ok m.
Proof.
  revert parent. induction rest as [|c rest IH]; intros parent Hdirs; simpl; [done|].
  destruct (Hdirs 1%nat) as [cs Hcs]; [simpl; lia|].
  simpl in Hcs. rewrite take_0 in Hcs. rewrite Hcs.
  apply IH. intros k Hk. rewrite prefix_snoc_step. apply Hdirs. simpl. lia.
Qed.

Lemma makedirs_from_succeeds (rest : list string) (parent : path) (m : gmap path node) :
  no_file_on_the_way m parent rest → ∃ m', makedirs_from parent rest m = Ok m'.
Proof.
  revert parent m. induction rest as [|c rest IH]; intros parent m Hfree; simpl.
  { by eexists. }
  assert (Hnext : ∀ m1, grows m m1 → no_file_on_the_way m1 (parent ++ [c]) rest).
  { intros m1 Hgrows k lines Hk. rewrite prefix_snoc_step.
    rewrite (proj1 (Hgrows _)). apply Hfree. simpl. lia. }
  destruct (m !! (parent ++ [c])) as [[lines|children]|] eqn:Hcur.
  - exfalso. apply (Hfree 1%nat lines); [simpl; lia|].
    simpl. by rewrite take_0.
  - apply IH, Hnext. reflexivity.
  - apply IH, Hnext. by apply mkdir_grows.
Qed.

Lemma makedirs_creates_the_way_aux (p : path) (w : world) :
  (no_file_on_the_way (fs w) [] p ↔ ∃ w', makedirs p w = (Ok (), w')) ∧
  (∀ w', makedirs p w = (Ok (), w') →
     dirs_exist (fs w') [] p ∧
     grows (fs w) (fs w') ∧
     (∀ q, ¬ q `prefix_of` p → fs w' !! q = fs w !! q) ∧
     makedirs p w' = (Ok (), w')).
Proof.
  unfold makedirs. split.
  - split.
    + intros Hfree. destruct (makedirs_from_succeeds p [] (fs w) Hfree) as [m' ->].
      by eexists.
    + intros [w' Hrun] k lines Hk Hfile.
      destruct (makedirs_from [] p (fs w)) as [m'|e] eqn:Hm; [|done].
      destruct (makedirs_from_dirs _ _ _ _ Hm k Hk) as [cs Hcs].
      apply (proj1 (makedirs_from_grows _ _ _ _ Hm _)) in Hfile. congruence.
  - intros w'. destruct (makedirs_from [] p (fs w)) as [m'|e] eqn:Hm; [|done].
    intros [= <-]. simpl.
    split; [by eapply makedirs_from_dirs|].
    split; [by eapply makedirs_from_grows|].
    split; [by apply (makedirs_from_frame _ _ _ _ Hm)|].
    by rewrite (makedirs_from_existing p [] m' (makedirs_from_dirs _ _ _ _ Hm)).
Qed.

(** [os.makedirs(p, exist_ok=True)] succeeds exactly when no regular
    file is on the way to [p].  When it does, every directory on the way
    exists afterwards, no regular file has appeared, gone or changed,
    nothing off the way to [p] has changed, and doing it again changes
    nothing. *)
Theorem makedirs_creates_the_way (p : path) (w : world) :
  (no_file_on_the_way (fs w) [] p ↔ ∃ w', makedirs p w = (Ok (), w')) ∧
  (∀ w', makedirs p w = (Ok (), w') →
     dirs_exist (fs w') [] p ∧
     grows (fs w) (fs w') ∧
     (∀ q, ¬ q `prefix_of` p → fs w' !! q = fs w !! q) ∧
     makedirs p w' = (Ok (), w')).
Proof. apply makedirs_creates_the_way_aux. Qed.

Lemma makedirs_creates_the_way_witness :
  let w := World {[ ["out"] := Dir [] ]} [] [] in
  let w' := (makedirs ["out"; "possible_answer"] w).2 in
  dirs_exist (fs w') [] ["out"; "possible_answer"] ∧
  makedirs ["out"; "possible_answer"] w' = (Ok (), w').
Proof.
  intros w w'.
  destruct (proj2 (makedirs_creates_the_way ["out"; "possible_answer"] w) w')
    as (Hdirs & _ & _ & Hagain).
  - vm_compute. reflexivity.
  - split; [exact Hdirs|exact Hagain].
Defined.

(** *** Saving *)








(** ** The orchestrator leaves the rest of the file system alone *)

Section keeps.
Context {S : Type} (R : relation S) `{!PreOrder R}.

Lemma keeps_ret {A} (a : A) : keeps R (ret a).
Proof. by intros s r s' [= <- <-]. Qed.

Lemma keeps_raise {A} (e : exn) : keeps R (@raise S A e).
Proof. by intros s r s' [= <- <-]. Qed.

Lemma keeps_lift {A} (r : result A) : keeps R (lift r).
Proof. by intros s r' s' [= <- <-]. Qed.

Lemma keeps_bind {A B} (c : M S A) (k : A → M S B) :
  keeps R c → (∀ a, keeps R (k a)) → keeps R (bind c k).
Proof.
  intros Hc Hk s r s'. unfold bind.
  destruct (c s) as [[a|e] s1] eqn:Hcs; pose proof (Hc _ _ _ Hcs) as HR.
  - intros Hks. etrans; [done|]. by eapply Hk.
  - by intros [= <- <-].
Qed.

Lemma keeps_try_except {A} (body : M S A) (handler : exn → M S A) :
  keeps R body → (∀ e, keeps R (handler e)) → keeps R (try_except body handler).
Proof.
  intros Hb Hh s r s'. unfold try_except.
  destruct (body s) as [[a|e] s1] eqn:Hbs; pose proof (Hb _ _ _ Hbs) as HR.
  - by intros [= <- <-].
  - destruct (is_Exception e); [|by intros [= <- <-]].
    intros Hhs. etrans; [done|]. by eapply Hh.
Qed.
End keeps.

Global Instance outside_untouched_preorder (dest_dir : path) :
  PreOrder (outside_untouched dest_dir).
Proof.
  split.
  - by intros m q lines Hq.
  - intros m1 m2 m3 H12 H23 q lines Hq. by rewrite (H23 q lines Hq), (H12 q lines Hq).
Qed.

Section outside.
Context (dest_dir : path).

Global Instance world_outside_preorder : PreOrder (world_outside dest_dir).
Proof.
  split.
  - intros w. unfold world_outside. reflexivity.
  - intros w1 w2 w3. unfold world_outside. apply transitivity.
Qed.

Global Instance frame_outside_preorder : PreOrder (frame_outside dest_dir).
Proof.
  split.
  - intros s. unfold frame_outside. reflexivity.
  - intros s1 s2 s3. unfold frame_outside. apply transitivity.
Qed.

Lemma keeps_same_fs {A} (c : M world A) :
  (∀ w r w', c w = (r, w') → fs w' = fs w) → keeps (world_outside dest_dir) c.
Proof.
  intros Hc w r w' Hrun. unfold world_outside. rewrite (Hc _ _ _ Hrun). reflexivity.
Qed.

Lemma keeps_print (e : event) : keeps (world_outside dest_dir) (print e).
Proof. apply keeps_same_fs. by intros w r w' [= <- <-]. Qed.

Lemma keeps_random_sample {A} (population : list A) (k : Z) :
  keeps (world_outside dest_dir) (random_sample population k).
Proof.
  apply keeps_same_fs. intros w r w' Hrun.
  unfold random_sample in Hrun. destruct (decide _) as [Hk|]; [|by injection Hrun as <- <-].
  destruct (sample_pool_length (Z.to_nat k) population w) as (l & w1 & Hrun1 & _ & Hfs & _);
    [lia|].
  rewrite Hrun in Hrun1. injection Hrun1 as -> ->. exact Hfs.
Qed.

Lemma keeps_path_exists (p : path) : keeps (world_outside dest_dir) (path_exists p).
Proof. apply keeps_same_fs. by intros w r w' [= <- <-]. Qed.

Lemma keeps_is_file (p : path) : keeps (world_outside dest_dir) (is_file p).
Proof. apply keeps_same_fs. by intros w r w' [= <- <-]. Qed.

Lemma keeps_glob (p : path) : keeps (world_outside dest_dir) (glob p).
Proof. apply keeps_same_fs. by intros w r w' [= <- <-]. Qed.

Lemma keeps_load_jsonl_file (p : path) : keeps (world_outside dest_dir) (load_jsonl_file p).
Proof.
  apply keeps_same_fs. intros w r w' Hrun.
  pose proof (proj1 (load_jsonl_file_reads_aux p w)) as Hw.
  rewrite Hrun in Hw. simpl in Hw. by rewrite Hw.
Qed.

Lemma keeps_makedirs (p : path) : keeps (world_outside dest_dir) (makedirs p).
Proof.
  intros w r w'. unfold makedirs.
  destruct (makedirs_from [] p (fs w)) as [m'|e] eqn:Hm; intros [= <- <-].
  - intros q lines _. simpl. apply (proj1 (makedirs_from_grows _ _ _ _ Hm q)).
  - reflexivity.
Qed.

Lemma keeps_write_lines (p : path) (lines : list line) :
  dest_dir `prefix_of` p → keeps (world_outside dest_dir) (write_lines p lines).
Proof.
  intros Hp w r w'. unfold write_lines.
  destruct (fs w !! p) as [[old|children]|] eqn:Hold.
  - intros [= <- <-] q ls Hq. simpl.
    rewrite lookup_insert_ne; [done|]. by intros <-.
  - intros [= <- <-]. reflexivity.
  - destruct (bool_decide (p = [])); [intros [= <- <-]; reflexivity|].
    destruct (is_dir _ _); intros [= <- <-]; [|reflexivity].
    intros q ls Hq. simpl. rewrite lookup_insert_ne by (by intros <-).
    apply (proj1 (add_child_grows (dirname p) (name p) (fs w) q)).
Qed.

Lemma keeps_save_jsonl_file (records : list record) (p : path) :
  dest_dir `prefix_of` p → keeps (world_outside dest_dir) (save_jsonl_file records p).
Proof.
  intros Hp. unfold save_jsonl_file.
  apply keeps_bind; [apply _|apply keeps_makedirs|]. intros _.
  by apply keeps_write_lines.
Qed.

Lemma keeps_sample_records_with_answers
    (records answers : list record) (sample_ratio : Q) :
  keeps (world_outside dest_dir) (sample_records_with_answers records answers sample_ratio).
Proof.
  apply keeps_same_fs. intros w r w' Hrun.
  destruct (sample_records_with_answers_raises records answers sample_ratio w)
    as (e & w1 & Hrun1 & Hfs & _).
  rewrite Hrun in Hrun1. injection Hrun1 as -> ->. exact Hfs.
Qed.

Lemma keeps_io {A} (c : M world A) : keeps (world_outside dest_dir) c → keeps (frame_outside dest_dir) (io c).
Proof.
  intros Hc [l w] r [l' w']. unfold io. simpl.
  destruct (c w) as [r1 w1] eqn:Hcw. intros [= <- <- <-].
  apply (Hc _ _ _ Hcw).
Qed.

Lemma keeps_load_records : keeps (frame_outside dest_dir) load_records.
Proof.
  intros [l w] r s'. unfold load_records. simpl.
  destruct l; intros [= <- <-]; reflexivity.
Qed.

Lemma keeps_store_records (records : list record) :
  keeps (frame_outside dest_dir) (store_records records).
Proof.
  intros [l w] r s'. unfold store_records. simpl. intros [= <- <-].
  unfold frame_outside. simpl. reflexivity.
Qed.

Lemma keeps_with_frame {A} (c : M frame A) :
  keeps (frame_outside dest_dir) c → keeps (world_outside dest_dir) (with_frame c).
Proof.
  intros Hc w r w'. unfold with_frame.
  destruct (c (None, w)) as [r1 s1] eqn:Hcw. intros [= <- <-].
  apply (Hc _ _ _ Hcw).
Qed.

Ltac keeps_step :=
  first
    [ apply keeps_ret; apply _
    | apply keeps_load_records
    | apply keeps_store_records
    | apply keeps_io
    | apply keeps_print
    | apply keeps_makedirs
    | apply keeps_path_exists
    | apply keeps_is_file
    | apply keeps_glob
    | apply keeps_load_jsonl_file
    | apply keeps_save_jsonl_file;
        first [ by apply prefix_app_r | by do 2 apply prefix_app_r ]
    | apply keeps_random_sample
    | apply keeps_sample_records_with_answers
    | apply keeps_bind; [apply _| |intros ?]
    | match goal with |- keeps _ (if ?b then _ else _) => destruct b end ].

Lemma keeps_process_file (src_dir : path) (sample_rate : Q) (file_path : path) :
  keeps (frame_outside dest_dir) (process_file src_dir dest_dir sample_rate file_path).
Proof. unfold process_file. repeat keeps_step. Qed.

Lemma keeps_main_file (data_dir : path) (sample_ratio : Q) (file_path : path) :
  keeps (world_outside dest_dir) (main_file data_dir dest_dir sample_ratio file_path).
Proof. unfold main_file. repeat keeps_step. Qed.

Lemma keeps_process_files (src_dir : path) (sample_rate : Q) (files : list path) :
  keeps (frame_outside dest_dir) (process_files src_dir dest_dir sample_rate files).
Proof.
  induction files as [|file_path rest IH]; simpl; [apply keeps_ret, _|].
  apply keeps_bind; [apply _|apply keeps_io, keeps_is_file|]. intros regular.
  destruct (negb regular); [done|].
  destruct (negb (eligible file_path)); [done|].
  apply keeps_bind; [apply _|apply keeps_io, keeps_print|]. intros _.
  apply keeps_bind; [apply _| |done].
  apply keeps_try_except; [apply _|apply keeps_process_file|].
  intros e. apply keeps_io, keeps_print.
Qed.

Lemma keeps_main_files (data_dir : path) (sample_ratio : Q) (files : list path) :
  keeps (world_outside dest_dir) (main_files data_dir dest_dir sample_ratio files).
Proof.
  induction files as [|file_path rest IH]; simpl; [apply keeps_ret, _|].
  apply keeps_bind; [apply _|apply keeps_is_file|]. intros regular.
  destruct (negb regular); [done|].
  apply keeps_bind; [apply _|apply keeps_print|]. intros _.
  apply keeps_bind; [apply _| |done].
  apply keeps_try_except; [apply _|apply keeps_main_file|].
  intros e. apply keeps_print.
Qed.

Lemma keeps_process_directory (src_dir : path) (sample_rate : Q) :
  keeps (world_outside dest_dir) (process_directory src_dir dest_dir sample_rate).
Proof.
  unfold process_directory.
  apply keeps_bind; [apply _|apply keeps_path_exists|]. intros found.
  destruct (negb found); [apply keeps_print|].
  apply keeps_bind; [apply _|apply keeps_makedirs|]. intros _.
  apply keeps_bind; [apply _|apply keeps_glob|]. intros files.
  apply keeps_with_frame, keeps_process_files.
Qed.
End outside.

(** X12: a run of [process_directory], and of the loop of [main], changes
    no regular file outside its destination directory: every path that is
    not below the destination holds the same regular file, or none, after
    the run as before it. *)
Theorem outside_destination_untouched :
  (∀ (src_dir dest_dir : path) (sample_rate : Q) (w w' : world) (r : result unit),
     process_directory src_dir dest_dir sample_rate w = (r, w') →
     ∀ q lines, ¬ dest_dir `prefix_of` q →
                (fs w' !! q = Some (File lines) ↔ fs w !! q = Some (File lines))) ∧
  (∀ (data_dir sample_dir : path) (sample_ratio : Q) (files : list path)
     (w w' : world) (r : result unit),
     main_files data_dir sample_dir sample_ratio files w = (r, w') →
     ∀ q lines, ¬ sample_dir `prefix_of` q →
                (fs w' !! q = Some (File lines) ↔ fs w !! q = Some (File lines))).
Proof.
  split.
  - intros src_dir dest_dir sample_rate w w' r Hrun.
    apply (keeps_process_directory dest_dir src_dir sample_rate _ _ _ Hrun).
  - intros data_dir sample_dir sample_ratio files w w' r Hrun.
    apply (keeps_main_files sample_dir data_dir sample_ratio files _ _ _ Hrun).
Qed.

Lemma outside_destination_untouched_witness :
  let a := [JsonLine (record_of_id "a_2"); JsonLine (record_of_id "a_1")] in
  let w := World {[ ["src"] := Dir ["a.jsonl"]; ["src"; "a.jsonl"] := File a ]} [] [] in
  let w' := (process_directory ["src"] ["out"] 1 w).2 in
  fs w' !! ["src"; "a.jsonl"] = Some (File a) ↔ fs w !! ["src"; "a.jsonl"] = Some (File a).
Proof.
  intros a w w'.
  apply (proj1 outside_destination_untouched ["src"] ["out"] 1%Q w w'
           (process_directory ["src"] ["out"] 1 w).1).
  - by destruct (process_directory ["src"] ["out"] 1 w).
  - intros [k Hk]. discriminate Hk.
Defined.

(** ** The two paths through a file *)

Lemma load_jsonl_file_same_world (p : path) (w w' : world) (r : result (list record)) :
  load_jsonl_file p w = (r, w') → w' = w.
Proof.
  intros Hrun. pose proof (proj1 (load_jsonl_file_reads_aux p w)) as Hw.
  by rewrite Hrun in Hw.
Qed.

Lemma path_exists_present (p : path) (w : world) :
  is_Some (fs w !! p) → path_exists p w = (Ok true, w).
Proof. intros Hp. unfold path_exists. by rewrite bool_decide_true. Qed.

Lemma path_exists_absent (p : path) (w : world) :
  fs w !! p = None → p ≠ [] → path_exists p w = (Ok false, w).
Proof.
  intros Hp Hne. unfold path_exists.
  rewrite Hp, bool_decide_false, bool_decide_false; [done..|].
  by intros [? ?].
Qed.

(** X13: when the [possible_answer] file of a file exists, nothing is
    written for that file: the body of the [try] raises, in
    [process_directory] and in [main] alike, and leaves the file system as
    it was. *)
Theorem with_answers_nothing_is_written :
  (∀ (src_dir dest_dir : path) (sample_rate : Q) (file_path : path) (s : frame),
     is_Some (fs s.2 !! ((src_dir ++ ["possible_answer"]) ++ [name file_path])) →
     ∃ e s', process_file src_dir dest_dir sample_rate file_path s = (Raise e, s') ∧
             fs s'.2 = fs s.2) ∧
  (∀ (data_dir sample_dir : path) (sample_ratio : Q) (file_path : path) (w : world),
     is_Some (fs w !! ((data_dir ++ ["possible_answer"]) ++ [name file_path])) →
     ∃ e w', main_file data_dir sample_dir sample_ratio file_path w = (Raise e, w') ∧
             fs w' = fs w).
Proof.
  split.
  - intros src_dir dest_dir sample_rate file_path [l w] Hans. simpl in Hans.
    assert (Hrest : ∀ l1,
      ∃ e s', (let* has_answers :=
                 io (path_exists ((src_dir ++ ["possible_answer"]) ++ [name file_path])) in
               if has_answers then
                 let* possible_answers :=
                   io (load_jsonl_file ((src_dir ++ ["possible_answer"]) ++ [name file_path])) in
                 let* records := load_records in
                 let* sampled :=
                   io (sample_records_with_answers records possible_answers sample_rate) in
                 io (save_jsonl_file sampled.1 (dest_dir ++ [name file_path])) ;;;
                 io (print (SavedRecords (dest_dir ++ [name file_path]))) ;;;
                 io (makedirs (dest_dir ++ ["possible_answer"])) ;;;
                 io (save_jsonl_file sampled.2
                       ((dest_dir ++ ["possible_answer"]) ++ [name file_path])) ;;;
                 io (print (SavedAnswers
                       ((dest_dir ++ ["possible_answer"]) ++ [name file_path])))
               else
                 let* records := load_records in
                 let* sampled_records :=
                   io (random_sample records
                         (num_samples (length records) sample_rate)) in
                 io (save_jsonl_file sampled_records (dest_dir ++ [name file_path])) ;;;
                 io (print (SavedRecords (dest_dir ++ [name file_path])))) (l1, w)
              = (Raise e, s') ∧ fs s'.2 = fs w).
    { intros l1. unfold bind at 1. unfold io at 1. cbn [fst snd].
      rewrite (path_exists_present _ _ Hans).
      unfold bind at 1. unfold io at 1. cbn [fst snd].
      destruct (load_jsonl_file _ w) as [[answers|e] w1] eqn:Hload;
        apply load_jsonl_file_same_world in Hload as ->; [|by eexists _, _].
      unfold bind at 1. unfold load_records at 1. cbn [fst snd].
      destruct l1 as [records|]; [|by eexists _, _].
      unfold bind at 1. unfold io at 1. cbn [fst snd].
      destruct (sample_records_with_answers_raises records answers sample_rate w)
        as (e2 & w2 & -> & Hfs & _).
      by eexists _, _. }
    unfold process_file. unfold bind at 1.
    destruct (decide _) as [Hjsonl|Hjsonl].
    + unfold bind at 1. unfold io at 1. cbn [fst snd].
      destruct (load_jsonl_file file_path w) as [[records|e] w1] eqn:Hload;
        apply load_jsonl_file_same_world in Hload as ->; [|by eexists _, _].
      unfold store_records. cbn [fst snd]. apply Hrest.
    + unfold ret. apply Hrest.
  - intros data_dir sample_dir sample_ratio file_path w Hans.
    unfold main_file. unfold bind at 1.
    destruct (load_jsonl_file file_path w) as [[records|e] w1] eqn:Hload;
      apply load_jsonl_file_same_world in Hload as ->; [|by eexists _, _].
    unfold bind at 1. rewrite (path_exists_present _ _ Hans).
    unfold bind at 1.
    destruct (load_jsonl_file _ w) as [[answers|e] w1] eqn:Hload;
      apply load_jsonl_file_same_world in Hload as ->; [|by eexists _, _].
    unfold bind at 1.
    destruct (sample_records_with_answers_raises records answers sample_ratio w)
      as (e2 & w2 & -> & Hfs & _).
    by eexists _, _.
Qed.

Lemma with_answers_nothing_is_written_witness :
  let w := World {[ ["src"; "a.jsonl"] := File [JsonLine (record_of_id "a_1")];
                    ["src"; "possible_answer"; "a.jsonl"]
                      := File [JsonLine (record_of_id "a_1")] ]} [] [] in
  ∃ e s', process_file ["src"] ["out"] 1 ["src"; "a.jsonl"] (None, w) = (Raise e, s') ∧
          fs s'.2 = fs w.
Proof.
  intros w.
  apply (proj1 with_answers_nothing_is_written ["src"] ["out"] 1%Q
           ["src"; "a.jsonl"] (None, w)).
  eexists. vm_compute. reflexivity.
Defined.








(** ** The percentage of [main] *)





(** ** Entries the orchestrator passes over *)

(** X17: entries of the listing that are not regular files, or whose
    extension is neither [.json] nor [.jsonl] in any letter case, are passed
    over in silence: a listing made of such entries only leaves the file
    system, the output and the variable [records] as they were. *)
Theorem process_files_skips
    (src_dir dest_dir : path) (sample_rate : Q) (files : list path) (s : frame) :
  Forall (λ f, (∀ lines, fs s.2 !! f ≠ Some (File lines)) ∨ eligible f = false) files →
  process_files src_dir dest_dir sample_rate files s = (Ok (), s).
Proof.
  destruct s as [l w]. cbn [snd].
  induction 1 as [|f files Hf _ IH]; [done|].
  cbn [process_files]. unfold bind at 1. unfold io at 1, is_file at 1. cbn [fst snd].
  destruct (fs w !! f) as [[lines|children]|] eqn:Hlook; cbn [negb]; try exact IH.
  destruct Hf as [Hf|Hf]; [by destruct (Hf lines)|].
  rewrite Hf. exact IH.
Qed.

Lemma process_files_skips_witness :
  let w := World {[ ["src"; "notes.txt"] := File [BadLine "hello"];
                    ["src"; "possible_answer"] := Dir [] ]} [] [] in
  process_files ["src"] ["out"] 1 [["src"; "notes.txt"]; ["src"; "possible_answer"]]
    (None, w) = (Ok (), (None, w)).
Proof.
  intros w. apply (process_files_skips ["src"] ["out"] 1%Q).
  constructor; [right; reflexivity|].
  constructor; [|constructor]. left. intros lines. discriminate.
Defined.

(** X18: when the source directory does not exist, [process_directory]
    reports it and returns: the destination directory is not created and
    the file system is as it was. *)
Theorem process_directory_missing_source
    (src_dir dest_dir : path) (sample_rate : Q) (w : world) :
  fs w !! src_dir = None → src_dir ≠ [] →
  process_directory src_dir dest_dir sample_rate w
  = (Ok (), World (fs w) (stdout w ++ [MissingSource src_dir]) (entropy w)).
Proof.
  intros Hsrc Hne. unfold process_directory, bind.
  by rewrite (path_exists_absent _ _ Hsrc Hne).
Qed.

Lemma process_directory_missing_source_witness :
  process_directory ["nowhere"] ["out"] 1 (World ∅ [] [])
  = (Ok (), World ∅ [MissingSource ["nowhere"]] []).
Proof.
  apply (process_directory_missing_source ["nowhere"] ["out"] 1%Q (World ∅ [] [])).
  - reflexivity.
  - discriminate.
Defined.

Lemma build_answer_map_missing (answers : list record) (m : gmap value record)
    (a : record) :
  a ∈ answers → a !! "id" = None → build_answer_map answers m = Raise (KeyError "id").
Proof.
  intros Ha Hid. revert m. induction answers as [|a0 answers IH]; intros m.
  { by apply elem_of_nil in Ha. }
  simpl. destruct (a0 !! "id") as [v|] eqn:H0; [|done].
  apply elem_of_cons in Ha as [->|Ha]; [congruence|]. by apply IH.
Qed.

(** X19: one answer without the key [id] makes the whole call raise
    KeyError on line 96, before anything is drawn: the random source and
    the output are as they were. *)
Theorem sample_records_with_answers_answer_without_id
    (records answers : list record) (sample_ratio : Q) (w : world) (a : record) :
  a ∈ answers → a !! "id" = None →
  sample_records_with_answers records answers sample_ratio w
  = (Raise (KeyError "id"), w).
Proof.
  intros Ha Hid. unfold sample_records_with_answers, bind, lift.
  by rewrite (build_answer_map_missing answers ∅ a Ha Hid).
Qed.

Lemma sample_records_with_answers_answer_without_id_witness :
  sample_records_with_answers [record_of_id "a_1"] [record_of_id "a_1"; ∅] 1
    (World ∅ [] [3%nat])
  = (Raise (KeyError "id"), World ∅ [] [3%nat]).
Proof.
  apply (sample_records_with_answers_answer_without_id
           [record_of_id "a_1"] [record_of_id "a_1"; ∅] 1%Q (World ∅ [] [3%nat]) ∅).
  - set_solver.
  - reflexivity.
Defined.
